(** * Delta_RLE.py: the delta / run-length codec of SimpleCompressionSystem

    A shallow embedding of the class [SimpleCompressionSystem] of
    [src/Delta_RLE.py] and the proofs of its byte-level contract.

    - A Python [bytes] / [bytearray] / list of ints is a [list Z]; a value
      is a byte when it lies in [0, 256) ([is_bytes]).  Python's [& 0xFF] is
      [Z.land _ 255] (Python ints are unbounded two's complement, as [Z]).
    - Indices and lengths are [nat]; every subscript that the source guards
      by a loop condition is a total lookup [!!!], the one unguarded
      subscript ([data[i + 1]] in the run-length reversal) is a partial
      lookup [!!] that raises [IndexError] when it is out of range.
    - [bytes(...)] and [bytearray(...)] are conversions that check the range
      of every element; an append to a bytearray is not checked again: what
      the loops append are bytes of [data] and run lengths of at most 255.
      The embedding is that of the code on byte sequences: on a list with an
      element outside [0, 256) the source raises [ValueError] at the append,
      which the loops here do not, and the theorems that run them carry
      [is_bytes].
    - A method call is a computation over the instance: it receives [self]
      and returns an outcome (a value or a raised exception) together with
      the instance afterwards.
    - The two [while] loops of [_apply_rle] and the [while] loop of the
      run-length reversal are defined by well-founded recursion on the
      distance to the end of the data.
    - [benchmark] and [main] are computations over the world outside (the
      files, the lines typed, the lines printed); the [while True] loop of
      [main] is run for a number of iterations given as fuel, and what is
      proved of it is proved for every amount of fuel. *)

From Stdlib Require Import ZArith.
From stdpp Require Import base numbers list strings gmap.
From Equations Require Import Equations.

Local Open Scope Z_scope.

(** ** Exceptions and outcomes *)

Inductive exception : Type :=
| ValueError (msg : string)
| IndexError.

Inductive outcome (A : Type) : Type :=
| Return (a : A)
| Raise (e : exception).
Arguments Return {A} a.
Arguments Raise {A} e.

(** ** The instance and the method monad *)

Record SimpleCompressionSystem : Type := { last_byte : Z }.

(** [__init__]: [self.last_byte = 0]. *)
Definition __init__ : SimpleCompressionSystem := {| last_byte := 0 |}.

(** A method body: from the instance to an outcome and the instance
    afterwards. *)
Definition method (A : Type) : Type :=
  SimpleCompressionSystem → outcome A * SimpleCompressionSystem.

Definition ret {A} (a : A) : method A := λ self, (Return a, self).

Definition raise {A} (e : exception) : method A := λ self, (Raise e, self).

Definition bind {A B} (m : method A) (k : A → method B) : method B :=
  λ self,
    match m self with
    | (Return a, self') => k a self'
    | (Raise e, self') => (Raise e, self')
    end.

Declare Scope method_scope.
Delimit Scope method_scope with method.
Notation "x <- m ;; k" := (bind m (λ x, k))
  (at level 100, m at next level, right associativity) : method_scope.
Local Open Scope method_scope.

(** ** Bytes *)

Definition is_byte (b : Z) : Prop := 0 ≤ b < 256.

Definition is_bytes (data : list Z) : Prop := Forall is_byte data.

Definition in_byte_range (b : Z) : bool := (0 <=? b) && (b <? 256).

(** [bytes(ints)]: the conversion of a sequence of ints to an immutable
    byte string; CPython raises [ValueError] when an element is outside
    [range(0, 256)]. *)
Definition bytes (ints : list Z) : method (list Z) :=
  if forallb in_byte_range ints then ret ints
  else raise (ValueError "bytes must be in range(0, 256)").

(** [bytearray(ints)]: the same conversion to a mutable byte array. *)
Definition bytearray (ints : list Z) : method (list Z) :=
  if forallb in_byte_range ints then ret ints
  else raise (ValueError "byte must be in range(0, 256)").

(** ** The transforms *)

(** [_apply_delta_encoding]:
    [[(data[i] - data[i - 1]) & 0xFF if i > 0 else data[i]
      for i in range(len(data))]]. *)
Definition delta_item (data : list Z) (i : nat) : Z :=
  if bool_decide (0 < i)%nat
  then Z.land (data !!! i - data !!! (i - 1)%nat) 255
  else data !!! i.

Definition delta_encoded (data : list Z) : list Z :=
  delta_item data <$> seq 0 (length data).

Definition _apply_delta_encoding (data : list Z) : method (list Z) :=
  ret (delta_encoded data).

(** The inner loop of [_apply_rle]:
    [while i + run_length < len(data) and data[i] == data[i + run_length]
           and run_length < 255: run_length += 1]. *)
Equations? run_scan (data : list Z) (i run_length : nat) : nat
  by wf (255 - run_length)%nat lt :=
  run_scan data i run_length
    with decide ((i + run_length < length data)%nat
                 ∧ data !!! i = data !!! (i + run_length)%nat
                 ∧ (run_length < 255)%nat) => {
    | left _ := run_scan data i (run_length + 1);
    | right _ := run_length }.
Proof. lia. Qed.

(** The outer loop of [_apply_rle]:
    [while i < len(data): run_length = 1; <inner loop>;
       compressed.append(data[i]); compressed.append(run_length);
       i += run_length]. *)
Equations? rle_loop (data : list Z) (i : nat) (compressed : list Z) : list Z
  by wf (length data - i)%nat lt :=
  rle_loop data i compressed with decide (i < length data)%nat => {
    | left _ :=
        rle_loop data (i + run_scan data i 1)
          (compressed ++ [data !!! i; Z.of_nat (run_scan data i 1)]);
    | right _ := compressed }.
Proof.
  assert (∀ r, r ≤ run_scan data i r)%nat as Hge.
  { intros r. remember (255 - r)%nat as n eqn:Hn. revert r Hn.
    induction n as [n IH] using lt_wf_ind. intros r ->.
    rewrite run_scan_equation_1.
    destruct (decide _) as [Hgo | Hstop]; simpl; [| lia].
    specialize (IH (255 - (r + 1))%nat ltac:(lia) (r + 1)%nat eq_refl). lia. }
  specialize (Hge 1%nat). lia.
Qed.

(** [_apply_rle]: [compressed = bytearray(); i = 0; <outer loop>;
    return compressed]. *)
Definition _apply_rle (data : list Z) : method (list Z) :=
  ret (rle_loop data 0 []).

(** The run-length reversal of [decompress] (the same loop in the ['01'] and
    the ['02'] branch):
    [while i < len(data): byte = data[i]; run_length = data[i + 1];
       decompressed.extend([byte] * run_length); i += 2].
    [[byte] * run_length] is the empty list for [run_length <= 0]. *)
Equations? rle_reverse_loop (data : list Z) (i : nat) (decompressed : list Z)
  : outcome (list Z) by wf (length data - i)%nat lt :=
  rle_reverse_loop data i decompressed with decide (i < length data)%nat => {
    | left _ with data !! (i + 1)%nat => {
        | Some run_length :=
            rle_reverse_loop data (i + 2)
              (decompressed ++ replicate (Z.to_nat run_length) (data !!! i));
        | None := Raise IndexError };
    | right _ := Return decompressed }.
Proof. lia. Qed.

Definition rle_reverse (data : list Z) : method (list Z) :=
  λ self, (rle_reverse_loop data 0 [], self).

(** The delta reversal of [decompress], in place on the bytearray:
    [for i in range(1, len(decompressed)):
       decompressed[i] = (decompressed[i] + decompressed[i - 1]) & 0xFF]. *)
Definition delta_reverse_step (decompressed : list Z) (i : nat) : list Z :=
  <[i := Z.land (decompressed !!! i + decompressed !!! (i - 1)%nat) 255]>
    decompressed.

Definition delta_reverse (decompressed : list Z) : list Z :=
  foldl delta_reverse_step decompressed (seq 1 (length decompressed - 1)).

(** ** Method dispatch *)

Definition invalid_method : exception :=
  ValueError "Invalid method. Use '01', '02', or '03'.".

(** [compress(self, data, method)]. *)
Definition compress (data : list Z) (meth : string) : method (list Z) :=
  compressed <-
    (if String.eqb meth "01" then
       delta_encoded <- _apply_delta_encoding data ;;
       _apply_rle delta_encoded
     else if String.eqb meth "02" then _apply_rle data
     else if String.eqb meth "03" then _apply_delta_encoding data
     else raise invalid_method) ;;
  bytes compressed.

(** [decompress(self, data, method)]. *)
Definition decompress (data : list Z) (meth : string) : method (list Z) :=
  decompressed <-
    (if String.eqb meth "01" then
       decompressed <- rle_reverse data ;;
       ret (delta_reverse decompressed)
     else if String.eqb meth "02" then rle_reverse data
     else if String.eqb meth "03" then
       decompressed <- bytearray data ;;
       ret (delta_reverse decompressed)
     else raise invalid_method) ;;
  bytes decompressed.

(** ** Names of the specification

    The three methods by name with their two-character selectors, and the
    error kinds by name with the Python exception that stands for each at
    the codec boundary: the [ValueError] of the dispatch is [InvalidMethod];
    the source defines no exception for a malformed run-length stream, and
    an [IndexError] is the interpreter's own out-of-range fault, which is
    none of the named kinds. *)

Inductive Method : Type := DeltaRLE | RLEOnly | DeltaOnly.

Definition selector (M : Method) : string :=
  match M with
  | DeltaRLE => "01"
  | RLEOnly => "02"
  | DeltaOnly => "03"
  end.

Inductive codec_error : Type := InvalidMethod | MalformedRLEStream.

Definition error_kind (e : exception) : option codec_error :=
  match e with
  | ValueError msg =>
      if String.eqb msg "Invalid method. Use '01', '02', or '03'."
      then Some InvalidMethod else None
  | IndexError => None
  end.

(** A method body that neither reads nor writes the instance. *)
Definition stateless {A} (m : method A) : Prop :=
  ∃ o : outcome A, ∀ self, m self = (o, self).

(** ** The run-length stream, read by records

    The second reading of a run-length stream, by its records and not by
    indices: [expand_pairs] is the in-order concatenation, for each
    consecutive pair [value, runLength], of [runLength] copies of [value];
    [run_lengths] are the bytes at the odd indices; [split_run] are the
    records of one run of [n] copies of [b], cut every 255. *)

Fixpoint expand_pairs (d : list Z) : list Z :=
  match d with
  | value :: runLength :: rest =>
      replicate (Z.to_nat runLength) value ++ expand_pairs rest
  | _ => []
  end.

Fixpoint run_lengths (d : list Z) : list Z :=
  match d with
  | _ :: runLength :: rest => runLength :: run_lengths rest
  | _ => []
  end.

Definition sum_bytes (l : list Z) : Z := foldr Z.add 0 l.

Definition split_run (b : Z) (n : nat) : list Z :=
  mjoin (replicate (n / 255) [b; 255])
  ++ (if decide (n `mod` 255 = 0)%nat then []
      else [b; Z.of_nat (n `mod` 255)]).

(** ** Runs

    [is_run data i r]: the [r] bytes of [data] from index [i] are equal, and
    the run stops there: at the cap of 255, at the end of the data, or at a
    different byte.  [boundary x y]: the last byte of [x] and the first byte
    of [y], when both exist, differ. *)

Definition is_run (data : list Z) (i r : nat) : Prop :=
  (1 ≤ r ≤ 255)%nat
  ∧ (i + r ≤ length data)%nat
  ∧ (∀ j, (j < r)%nat → data !!! (i + j)%nat = data !!! i)
  ∧ (r = 255%nat
     ∨ (i + r)%nat = length data
     ∨ data !!! i ≠ data !!! (i + r)%nat).

Definition boundary (x y : list Z) : Prop :=
  ∀ a b, last x = Some a → head y = Some b → a ≠ b.

(** ** The shell: [benchmark] and [main]

    The functions around the codec act on the world outside: the file
    system, the lines typed by the user and the lines printed.

    - A path names a regular file with its bytes, a directory, or nothing;
      [os.path.exists] is true of the first two, [open(path, 'rb')] succeeds
      on the first only, [open(path, 'wb')] fails on a directory and where
      [writable] says so, and creates or replaces the file otherwise.  Every
      failure of [open] is an [OSError].
    - [input(prompt)] prints the prompt and takes the next line typed, or
      raises [EOFError] when there is none.  [str.strip] is a parameter.
    - A printed line is kept as the literal text or, for an f-string, as the
      values it is formatted from; [a / b] is kept as the pair of its
      operands once [b] is known not to be zero, the float and its rounding
      are not modelled.
    - [continue], [break] and a raised exception leave the rest of the loop
      body; [try ... except Exception as e] turns the exception into the
      printed line of the handler. *)

Inductive shell_exception : Type :=
| CodecError (e : exception)
| OSError (path : string)
| ZeroDivisionError
| EOFError.

Inductive line : Type :=
| Text (s : string)
| Prompt (s : string)
| Testing (file_path : string) (original : nat)
| Compressed (compressed : nat) (ratio : nat * nat)
| Decompressed (decompressed : nat)
| CompressedTo (original compressed : nat) (ratio : nat * nat)
| DecompressedTo (compressed decompressed : nat)
| Error (e : shell_exception).

Inductive node : Type :=
| File (content : list Z)
| Directory.

Record world : Type := {
  files : gmap string node;
  stdin : list string;
  stdout : list line }.

Inductive flow (A : Type) : Type :=
| Normal (a : A)
| Continue
| Break
| Raised (e : shell_exception).
Arguments Normal {A} a.
Arguments Continue {A}.
Arguments Break {A}.
Arguments Raised {A} e.

Definition io (A : Type) : Type := world → flow A * world.

#[global] Instance io_ret : MRet io := λ A a w, (Normal a, w).

#[global] Instance io_bind : MBind io := λ A B k m w,
  match m w with
  | (Normal a, w') => k a w'
  | (Continue, w') => (Continue, w')
  | (Break, w') => (Break, w')
  | (Raised e, w') => (Raised e, w')
  end.

#[global] Instance io_fmap : FMap io := λ A B f m, a ← m; mret (f a).

Definition continue {A} : io A := λ w, (Continue, w).

Definition break {A} : io A := λ w, (Break, w).

Definition print (l : line) : io unit := λ w,
  (Normal (), {| files := files w; stdin := stdin w;
                 stdout := stdout w ++ [l] |}).

Definition input (prompt : string) : io string := λ w,
  match stdin w with
  | [] =>
      (Raised EOFError,
       {| files := files w; stdin := [];
          stdout := stdout w ++ [Prompt prompt] |})
  | typed :: rest =>
      (Normal typed,
       {| files := files w; stdin := rest;
          stdout := stdout w ++ [Prompt prompt] |})
  end.

(** [os.path.exists(path)]. *)
Definition path_exists (path : string) : io bool := λ w,
  (Normal (bool_decide (is_Some (files w !! path))), w).

(** [with open(path, 'rb') as f: ... = f.read()]. *)
Definition read_file (path : string) : io (list Z) := λ w,
  match files w !! path with
  | Some (File content) => (Normal content, w)
  | _ => (Raised (OSError path), w)
  end.

(** [with open(path, 'wb') as f: f.write(data)]. *)
Definition write_file (writable : string → bool) (path : string)
    (data : list Z) : io unit := λ w,
  match files w !! path with
  | Some Directory => (Raised (OSError path), w)
  | _ =>
      if writable path
      then (Normal (), {| files := <[path := File data]> (files w);
                          stdin := stdin w; stdout := stdout w |})
      else (Raised (OSError path), w)
  end.

(** [a / b] on two lengths. *)
Definition true_div (a b : nat) : io (nat * nat) := λ w,
  if decide (b = 0%nat) then (Raised ZeroDivisionError, w)
  else (Normal (a, b), w).

(** A call of a method of the codec on the instance [self]. *)
Definition call {A} (m : method A) (self : SimpleCompressionSystem)
  : io (A * SimpleCompressionSystem) := λ w,
  match m self with
  | (Return a, self') => (Normal (a, self'), w)
  | (Raise e, self') => (Raised (CodecError e), w)
  end.

(** [s.endswith(suffix)]. *)
Fixpoint endswith (s suffix : string) : bool :=
  if String.eqb s suffix then true
  else match s with
       | EmptyString => false
       | String _ s' => endswith s' suffix
       end.

(** [method not in ['01', '02', '03']]. *)
Definition not_a_method (meth : string) : bool :=
  negb (bool_decide (meth ∈ ["01"; "02"; "03"])).

Definition newline : string := String (Ascii.ascii_of_nat 10) EmptyString.

(** [benchmark(file_path, method)]. *)
Definition benchmark (file_path meth : string) : io unit :=
  let compressor := __init__ in
  original ← read_file file_path;
  print (Testing file_path (length original));;
  '(compressed, compressor) ← call (compress original meth) compressor;
  ratio ← true_div (length compressed) (length original);
  print (Compressed (length compressed) ratio);;
  '(decompressed, compressor) ← call (decompress compressed meth) compressor;
  print (Decompressed (length decompressed)).

Section Menu.
Variable strip : string → string.
Variable writable : string → bool.

(** The three prints of the methods to choose from, after their title. *)
Definition print_methods (title : string) : io unit :=
  print (Text title);;
  print (Text "01 - Delta + RLE");;
  print (Text "02 - RLE only");;
  print (Text "03 - Delta only").

(** The branch [choice == "1"] of [main]. *)
Definition compress_file : io unit :=
  input_file ← strip <$> input "Input file: ";
  present ← path_exists input_file;
  (if negb present then print (Text "File not found!");; continue
   else mret ());;
  output_file ← strip <$> input "Output file (.cmp): ";
  let output_file :=
    if negb (endswith output_file ".cmp") then output_file +:+ ".cmp"
    else output_file in
  print_methods "Select compression method:";;
  meth ← strip <$> input "Choose method (01/02/03): ";
  (if not_a_method meth then print (Text "Invalid method selected.");; continue
   else mret ());;
  let compressor := __init__ in
  original ← read_file input_file;
  '(compressed, compressor) ← call (compress original meth) compressor;
  write_file writable output_file compressed;;
  ratio ← true_div (length compressed) (length original);
  print (CompressedTo (length original) (length compressed) ratio).

(** The branch [choice == "2"] of [main]. *)
Definition decompress_file : io unit :=
  input_file ← strip <$> input "Input file (.cmp): ";
  (if negb (endswith input_file ".cmp")
   then print (Text "Must be a .cmp file!");; continue
   else mret ());;
  output_file ← strip <$> input "Output file: ";
  print_methods "Select decompression method:";;
  meth ← strip <$> input "Choose method (01/02/03): ";
  (if not_a_method meth then print (Text "Invalid method selected.");; continue
   else mret ());;
  let compressor := __init__ in
  compressed ← read_file input_file;
  '(decompressed, compressor) ← call (decompress compressed meth) compressor;
  write_file writable output_file decompressed;;
  print (DecompressedTo (length compressed) (length decompressed)).

(** The branch [choice == "3"] of [main]. *)
Definition benchmark_file : io unit :=
  file_to_test ← strip <$> input "File to benchmark: ";
  present ← path_exists file_to_test;
  if (present : bool) then
    print_methods "Select compression method:";;
    meth ← strip <$> input "Choose method (01/02/03): ";
    (if not_a_method meth
     then print (Text "Invalid method selected.");; continue
     else mret ());;
    benchmark file_to_test meth
  else print (Text "File not found!").

(** [try: body except Exception as e: print(f"Error: {e}")]. *)
Definition try_except (body : io unit) : io unit := λ w,
  match body w with
  | (Raised e, w') => print (Error e) w'
  | other => other
  end.

(** The body of the [while True] loop of [main]. *)
Definition iteration : io unit :=
  print (Text (newline +:+ "Menu:"));;
  print (Text "1. Compress file");;
  print (Text "2. Decompress file");;
  print (Text "3. Benchmark file");;
  print (Text "4. Exit");;
  try_except (
    choice ← strip <$> input "Select: ";
    if String.eqb choice "1" return io unit then compress_file
    else if String.eqb choice "2" then decompress_file
    else if String.eqb choice "3" then benchmark_file
    else if String.eqb choice "4" then break
    else mret ()).

(** The [while True] loop of [main], for at most [fuel] iterations: how
    and in which world the loop is left, by [break] or by an exception
    that escapes the body, or nothing when it is still running. *)
Fixpoint main_loop (fuel : nat) (w : world) : option (flow () * world) :=
  match fuel with
  | O => None
  | S fuel' =>
      match iteration w with
      | (Break, w') => Some (Normal (), w')
      | (Raised e, w') => Some (Raised e, w')
      | (_, w') => main_loop fuel' w'
      end
  end.

(** [main()]. *)
Definition main (fuel : nat) (w : world) : option (flow () * world) :=
  match (print (Text "Simple Compression System");;
         print (Text "Supports RLE and Delta Encoding")) w with
  | (Normal _, w') => main_loop fuel w'
  | (other, w') => Some (other, w')
  end.
End Menu.

(** What a shell computation does to the world, whatever the world: it
    keeps the files; it writes at most one file, at a path that satisfies
    [P]; it never leaves the loop; it only consumes typed lines. *)

Definition keeps_files {A} (m : io A) : Prop :=
  ∀ w, files (m w).2 = files w.

Definition writes_at_most_one {A} (P : string → Prop) (m : io A) : Prop :=
  ∀ w, files (m w).2 = files w
       ∨ ∃ path data,
           P path ∧ is_bytes data
           ∧ files (m w).2 = <[path := File data]> (files w).

Definition never_breaks {A} (m : io A) : Prop :=
  ∀ w, (m w).1 ≠ Break.

Definition consumes_input {A} (m : io A) : Prop :=
  ∀ w, stdin (m w).2 `suffix_of` stdin w.

(** ** Bytes and the byte-string conversion *)

Lemma land_255_mod z : Z.land z 255 = z `mod` 256.
Proof. change 255 with (Z.ones 8). by rewrite Z.land_ones. Qed.

Lemma land_255_byte z : is_byte (Z.land z 255).
Proof. rewrite land_255_mod. apply Z.mod_pos_bound. lia. Qed.

Lemma in_byte_range_spec b : in_byte_range b = true ↔ is_byte b.
Proof. unfold in_byte_range, is_byte. lia. Qed.

Lemma forallb_in_byte_range ints :
  forallb in_byte_range ints = true ↔ is_bytes ints.
Proof.
  unfold is_bytes. rewrite forallb_forall, Forall_forall.
  split; intros H b Hb.
  - apply in_byte_range_spec, H. by apply list_elem_of_In.
  - apply in_byte_range_spec, H. by apply list_elem_of_In.
Qed.

(** Closed lists of bytes. *)
Ltac solve_bytes :=
  unfold is_bytes;
  repeat match goal with |- Forall _ _ => constructor end;
  try assumption; unfold is_byte; lia.

Lemma bytes_ok ints self : is_bytes ints → bytes ints self = (Return ints, self).
Proof.
  intros H. unfold bytes. apply forallb_in_byte_range in H. by rewrite H.
Qed.

Lemma bytearray_ok ints self :
  is_bytes ints → bytearray ints self = (Return ints, self).
Proof.
  intros H. unfold bytearray. apply forallb_in_byte_range in H. by rewrite H.
Qed.

Lemma lookup_byte data i b : is_bytes data → data !! i = Some b → is_byte b.
Proof. intros H. by apply (Forall_lookup_1 _ _ _ _ H). Qed.

Lemma lookup_total_byte data i :
  is_bytes data → (i < length data)%nat → is_byte (data !!! i).
Proof.
  intros H Hi. apply (lookup_byte data i); [done |].
  by apply list_lookup_lookup_total_lt.
Qed.

(** ** Delta encoding *)

Lemma delta_encoded_length data : length (delta_encoded data) = length data.
Proof. unfold delta_encoded. by rewrite length_fmap, length_seq. Qed.

Lemma delta_encoded_lookup data i :
  (i < length data)%nat → delta_encoded data !! i = Some (delta_item data i).
Proof.
  intros Hi. unfold delta_encoded.
  by rewrite list_lookup_fmap, lookup_seq_lt.
Qed.

Lemma delta_item_byte data i :
  is_bytes data → (i < length data)%nat → is_byte (delta_item data i).
Proof.
  intros H Hi. unfold delta_item. case_bool_decide.
  - apply land_255_byte.
  - by apply lookup_total_byte.
Qed.

Lemma delta_encoded_bytes data : is_bytes data → is_bytes (delta_encoded data).
Proof.
  intros H. apply Forall_lookup_2. intros i b Hb.
  assert (i < length data)%nat as Hi.
  { rewrite <- delta_encoded_length. by apply lookup_lt_is_Some_1. }
  rewrite delta_encoded_lookup in Hb by done.
  injection Hb as <-. by apply delta_item_byte.
Qed.

(** ** Delta reversal *)

Lemma delta_undo a b :
  is_byte a → Z.land (Z.land (a - b) 255 + b) 255 = a.
Proof.
  intros Ha. rewrite !land_255_mod, Z.add_mod_idemp_l by lia.
  replace (a - b + b) with a by lia. by apply Z.mod_small.
Qed.

(** After the [k] first iterations of the reversal on the delta encoding of
    [x], the bytes up to index [k] are those of [x] and the others are still
    the encoded ones. *)
Lemma delta_reverse_prefix x k :
  is_bytes x → (k < length x)%nat →
  let d := foldl delta_reverse_step (delta_encoded x) (seq 1 k) in
  length d = length x
  ∧ (∀ j, (j ≤ k)%nat → d !! j = x !! j)
  ∧ (∀ j, (k < j)%nat → d !! j = delta_encoded x !! j).
Proof.
  intros Hx. induction k as [|k IH]; intros Hk; cbn zeta.
  - simpl. split; [apply delta_encoded_length |]. split; [| done].
    intros j Hj. assert (j = 0%nat) as -> by lia.
    rewrite delta_encoded_lookup by done.
    unfold delta_item. rewrite bool_decide_eq_false_2 by lia.
    symmetry. by apply list_lookup_lookup_total_lt.
  - destruct IH as (Hlen & Hlow & Hhigh); [lia |]. cbn zeta in *.
    rewrite seq_S, foldl_app. cbn [foldl Nat.add].
    set (d := foldl delta_reverse_step (delta_encoded x) (seq 1 k)) in *.
    unfold delta_reverse_step.
    split; [by rewrite length_insert |]. split.
    + intros j Hj. destruct (decide (j = S k)) as [-> | Hne].
      * rewrite list_lookup_insert_eq by lia.
        rewrite (list_lookup_total_correct d (S k) (delta_item x (S k))).
        2:{ rewrite Hhigh by lia. by apply delta_encoded_lookup. }
        rewrite (list_lookup_total_correct d (S k - 1) (x !!! k)).
        2:{ rewrite Hlow by lia. replace (S k - 1)%nat with k by lia.
            apply list_lookup_lookup_total_lt. lia. }
        unfold delta_item. rewrite bool_decide_eq_true_2 by lia.
        replace (S k - 1)%nat with k by lia.
        rewrite delta_undo by (by apply lookup_total_byte).
        symmetry. by apply list_lookup_lookup_total_lt.
      * rewrite list_lookup_insert_ne by lia. apply Hlow. lia.
    + intros j Hj. rewrite list_lookup_insert_ne by lia. apply Hhigh. lia.
Qed.

Lemma delta_reverse_encoded x :
  is_bytes x → delta_reverse (delta_encoded x) = x.
Proof.
  intros Hx. unfold delta_reverse. rewrite delta_encoded_length.
  destruct (decide (length x = 0)%nat) as [H0 | Hpos].
  - rewrite H0. simpl. unfold delta_encoded. rewrite H0. simpl.
    symmetry. by apply nil_length_inv.
  - destruct (delta_reverse_prefix x (length x - 1) Hx) as (Hlen & Hlow & _);
      [lia |].
    apply list_eq. intros j.
    destruct (decide (j ≤ length x - 1)%nat) as [Hj | Hj]; [by apply Hlow |].
    rewrite !lookup_ge_None_2; [done | lia | lia].
Qed.

(** ** Run-length encoding *)

Lemma run_scan_ge data i run_length :
  (run_length ≤ run_scan data i run_length)%nat.
Proof.
  funelim (run_scan data i run_length); [lia | lia].
Qed.

Lemma run_scan_iter data i run_length :
  run_scan data i run_length =
    if decide ((i + run_length < length data)%nat
               ∧ data !!! i = data !!! (i + run_length)%nat
               ∧ (run_length < 255)%nat)
    then run_scan data i (run_length + 1)
    else run_length.
Proof.
  rewrite run_scan_equation_1. by destruct (decide _).
Qed.

(** What the inner loop computes when it starts inside a run: the run is
    extended as far as the data, the equality of bytes and the cap allow. *)
Lemma run_scan_spec data i r0 :
  (i + r0 ≤ length data)%nat → (r0 ≤ 255)%nat →
  (∀ j, (j < r0)%nat → data !!! (i + j)%nat = data !!! i) →
  (r0 ≤ run_scan data i r0 ≤ 255)%nat
  ∧ (i + run_scan data i r0 ≤ length data)%nat
  ∧ (∀ j, (j < run_scan data i r0)%nat → data !!! (i + j)%nat = data !!! i)
  ∧ (run_scan data i r0 = 255%nat
     ∨ (i + run_scan data i r0)%nat = length data
     ∨ data !!! i ≠ data !!! (i + run_scan data i r0)%nat).
Proof.
  remember (255 - r0)%nat as n eqn:Hn. revert r0 Hn.
  induction (lt_wf n) as [n _ IH]. intros r0 -> Hlen Hcap Hrun.
  rewrite run_scan_iter. destruct (decide _) as [(Hlt & Heq & Hlt255) | Hstop].
  - destruct (IH (255 - (r0 + 1))%nat ltac:(lia) (r0 + 1)%nat eq_refl)
      as (Hr & Hle & Hall & Hend); [lia | lia | | ].
    + intros j Hj. destruct (decide (j = r0)) as [-> | Hne]; [done |].
      apply Hrun. lia.
    + repeat split; [lia | lia | done | done | done].
  - repeat split; [lia | done | done | done |].
    destruct (decide (r0 = 255%nat)); [by left |].
    destruct (decide ((i + r0)%nat = length data)); [by right; left |].
    right; right. intros Heq. apply Hstop. repeat split; [lia | done | lia].
Qed.

Lemma run_scan_1 data i :
  (i < length data)%nat →
  (1 ≤ run_scan data i 1 ≤ 255)%nat
  ∧ (i + run_scan data i 1 ≤ length data)%nat
  ∧ take (run_scan data i 1) (drop i data)
    = replicate (run_scan data i 1) (data !!! i)
  ∧ (run_scan data i 1 = 255%nat
     ∨ (i + run_scan data i 1)%nat = length data
     ∨ data !!! i ≠ data !!! (i + run_scan data i 1)%nat).
Proof.
  intros Hi.
  destruct (run_scan_spec data i 1) as (Hr & Hle & Hall & Hend); [lia | lia | |].
  { intros j Hj. by replace j with 0%nat by lia; rewrite Nat.add_0_r. }
  repeat split; [lia | lia | done | | done].
  apply list_eq. intros j.
  destruct (decide (j < run_scan data i 1)%nat) as [Hj | Hj].
  - rewrite lookup_take_lt, lookup_drop, lookup_replicate_2 by done.
    rewrite <- (Hall j Hj). apply list_lookup_lookup_total_lt. lia.
  - rewrite lookup_take_ge by lia. symmetry. apply lookup_replicate_None. lia.
Qed.

Lemma rle_loop_lt data i compressed :
  (i < length data)%nat →
  rle_loop data i compressed =
    rle_loop data (i + run_scan data i 1)
      (compressed ++ [data !!! i; Z.of_nat (run_scan data i 1)]).
Proof.
  intros Hi. rewrite rle_loop_equation_1.
  destruct (decide _); [done | lia].
Qed.

Lemma rle_loop_ge data i compressed :
  (length data ≤ i)%nat → rle_loop data i compressed = compressed.
Proof.
  intros Hi. rewrite rle_loop_equation_1.
  destruct (decide _); [lia | done].
Qed.

(** The records already written are a prefix of the result. *)
Lemma rle_loop_acc data i compressed :
  rle_loop data i compressed = compressed ++ rle_loop data i [].
Proof.
  remember (length data - i)%nat as n eqn:Hn. revert i compressed Hn.
  induction (lt_wf n) as [n _ IH]. intros i compressed ->.
  destruct (decide (i < length data)%nat) as [Hi | Hi].
  - pose proof (run_scan_ge data i 1) as Hr.
    rewrite (rle_loop_lt data i compressed), (rle_loop_lt data i []) by done.
    rewrite (IH (length data - (i + run_scan data i 1))%nat ltac:(lia)
               _ (compressed ++ _) eq_refl).
    rewrite (IH (length data - (i + run_scan data i 1))%nat ltac:(lia)
               _ ([] ++ _) eq_refl).
    by rewrite app_nil_l, app_assoc.
  - rewrite !rle_loop_ge by lia. by rewrite app_nil_r.
Qed.

Lemma rle_loop_step data i :
  (i < length data)%nat →
  rle_loop data i [] =
    data !!! i :: Z.of_nat (run_scan data i 1)
      :: rle_loop data (i + run_scan data i 1) [].
Proof.
  intros Hi. rewrite rle_loop_lt by done. rewrite rle_loop_acc. done.
Qed.

(** Induction along the iterations of the outer loop. *)
Lemma rle_loop_ind (data : list Z) (P : nat → list Z → Prop) :
  (∀ i, (length data ≤ i)%nat → P i []) →
  (∀ i, (i < length data)%nat →
        P (i + run_scan data i 1)%nat (rle_loop data (i + run_scan data i 1) []) →
        P i (data !!! i :: Z.of_nat (run_scan data i 1)
               :: rle_loop data (i + run_scan data i 1) [])) →
  ∀ i, P i (rle_loop data i []).
Proof.
  intros Hstop Hstep i.
  remember (length data - i)%nat as n eqn:Hn. revert i Hn.
  induction (lt_wf n) as [n _ IH]. intros i ->.
  destruct (decide (i < length data)%nat) as [Hi | Hi].
  - rewrite rle_loop_step by done. apply Hstep; [done |].
    pose proof (run_scan_ge data i 1).
    apply (IH (length data - (i + run_scan data i 1))%nat); [lia | done].
  - rewrite rle_loop_ge by lia. apply Hstop. lia.
Qed.

Lemma rle_loop_bytes data i : is_bytes data → is_bytes (rle_loop data i []).
Proof.
  intros Hd. apply (rle_loop_ind data (λ _ out, is_bytes out)).
  - intros _ _. constructor.
  - intros j Hj IH. destruct (run_scan_1 data j Hj) as (Hr & _).
    constructor; [by apply lookup_total_byte |].
    constructor; [unfold is_byte; lia | done].
Qed.

Lemma rle_loop_even data i : ∃ k, length (rle_loop data i []) = (2 * k)%nat.
Proof.
  apply (rle_loop_ind data (λ _ out, ∃ k, length out = (2 * k)%nat)).
  - intros _ _. by exists 0%nat.
  - intros j _ [k Hk]. exists (S k). simpl. lia.
Qed.


Lemma rle_loop_run_length data i k n :
  rle_loop data i [] !! (2 * k + 1)%nat = Some n → 1 ≤ n ≤ 255.
Proof.
  revert k.
  apply (rle_loop_ind data
           (λ _ out, ∀ k, out !! (2 * k + 1)%nat = Some n → 1 ≤ n ≤ 255)).
  - intros _ _ k Hk. by rewrite lookup_nil in Hk.
  - intros j Hj IH k Hk. destruct (run_scan_1 data j Hj) as (Hr & _).
    destruct k as [|k].
    + simpl in Hk. injection Hk as <-. lia.
    + replace (2 * S k + 1)%nat with (S (S (2 * k + 1))) in Hk by lia.
      simpl in Hk. by apply (IH k).
Qed.

Lemma expand_rle_loop data i : expand_pairs (rle_loop data i []) = drop i data.
Proof.
  apply (rle_loop_ind data (λ i out, expand_pairs out = drop i data)).
  - intros j Hj. by rewrite drop_ge.
  - intros j Hj IH. destruct (run_scan_1 data j Hj) as (_ & _ & Htake & _).
    cbn [expand_pairs]. rewrite Nat2Z.id, IH, <- Htake.
    by rewrite <- drop_drop, take_drop.
Qed.

(** ** Run-length reversal *)

Lemma rle_reverse_loop_ge data i decompressed :
  (length data ≤ i)%nat → rle_reverse_loop data i decompressed = Return decompressed.
Proof.
  intros Hi. rewrite rle_reverse_loop_equation_1.
  destruct (decide _); [lia | done].
Qed.

Lemma rle_reverse_loop_pair data i decompressed value runLength :
  data !! i = Some value → data !! (i + 1)%nat = Some runLength →
  rle_reverse_loop data i decompressed =
    rle_reverse_loop data (i + 2)
      (decompressed ++ replicate (Z.to_nat runLength) value).
Proof.
  intros Hv Hn. rewrite rle_reverse_loop_equation_1.
  destruct (decide _) as [Hi | Hi].
  - cbn. rewrite Hn. cbn. by rewrite (list_lookup_total_correct _ _ _ Hv).
  - apply lookup_lt_Some in Hv. lia.
Qed.

Lemma rle_reverse_loop_last data i decompressed :
  (i + 1)%nat = length data →
  rle_reverse_loop data i decompressed = Raise IndexError.
Proof.
  intros Hi. rewrite rle_reverse_loop_equation_1.
  destruct (decide _) as [Hlt | Hge]; [| lia].
  cbn. by rewrite lookup_ge_None_2 by lia.
Qed.

Lemma drop_pair (data : list Z) i value runLength :
  data !! i = Some value → data !! (i + 1)%nat = Some runLength →
  drop i data = value :: runLength :: drop (i + 2) data.
Proof.
  intros Hv Hn. rewrite (drop_S _ _ _ Hv).
  replace (i + 1)%nat with (S i) in Hn by lia. rewrite (drop_S _ _ _ Hn).
  by replace (S (S i)) with (i + 2)%nat by lia.
Qed.

(** On an even number of remaining bytes the loop ends normally with the
    expansion of the remaining records appended. *)
Lemma rle_reverse_loop_even data k : ∀ i decompressed,
  (i + 2 * k)%nat = length data →
  rle_reverse_loop data i decompressed
  = Return (decompressed ++ expand_pairs (drop i data)).
Proof.
  induction k as [|k IH]; intros i decompressed Hlen.
  - rewrite rle_reverse_loop_ge, drop_ge by lia. by rewrite app_nil_r.
  - destruct (lookup_lt_is_Some_2 data i) as [value Hv]; [lia |].
    destruct (lookup_lt_is_Some_2 data (i + 1)) as [runLength Hn]; [lia |].
    rewrite (rle_reverse_loop_pair _ _ _ _ _ Hv Hn), IH by lia.
    rewrite (drop_pair _ _ _ _ Hv Hn). cbn [expand_pairs].
    by rewrite app_assoc.
Qed.

(** On an odd number of remaining bytes the last record lacks its
    run-length byte and the subscript [data[i + 1]] is out of range. *)
Lemma rle_reverse_loop_odd data k : ∀ i decompressed,
  (i + 2 * k + 1)%nat = length data →
  rle_reverse_loop data i decompressed = Raise IndexError.
Proof.
  induction k as [|k IH]; intros i decompressed Hlen.
  - apply rle_reverse_loop_last. lia.
  - destruct (lookup_lt_is_Some_2 data i) as [value Hv]; [lia |].
    destruct (lookup_lt_is_Some_2 data (i + 1)) as [runLength Hn]; [lia |].
    rewrite (rle_reverse_loop_pair _ _ _ _ _ Hv Hn). apply IH. lia.
Qed.

(** ** Streams read by records *)

Lemma pairs_ind (P : list Z → Prop) :
  P [] → (∀ a, P [a]) → (∀ a b rest, P rest → P (a :: b :: rest)) →
  ∀ d, P d.
Proof.
  intros Hnil Hone Hpair.
  assert (∀ d, P d ∧ ∀ a, P (a :: d)) as H.
  { induction d as [|b d [IH1 IH2]]; [by split |].
    split; [apply IH2 |]. intros a. by apply Hpair. }
  intros d. apply H.
Qed.

Lemma expand_pairs_bytes d : is_bytes d → is_bytes (expand_pairs d).
Proof.
  induction d as [| a | a b rest IH] using pairs_ind; intros Hd;
    [constructor | constructor |].
  inversion_clear Hd as [|? ? Ha Hd']. inversion_clear Hd' as [|? ? Hb Hrest].
  cbn [expand_pairs]. apply Forall_app_2; [by apply Forall_replicate | by apply IH].
Qed.

Lemma expand_pairs_length d :
  is_bytes d → Z.of_nat (length (expand_pairs d)) = sum_bytes (run_lengths d).
Proof.
  induction d as [| a | a b rest IH] using pairs_ind; intros Hd; [done | done |].
  inversion_clear Hd as [|? ? Ha Hd']. inversion_clear Hd' as [|? ? Hb Hrest].
  cbn [expand_pairs run_lengths sum_bytes foldr].
  rewrite length_app, length_replicate, Nat2Z.inj_add, IH by done.
  unfold is_byte in Hb. unfold sum_bytes. lia.
Qed.

Lemma run_lengths_lookup d k : run_lengths d !! k = d !! (2 * k + 1)%nat.
Proof.
  revert k. induction d as [| a | a b rest IH] using pairs_ind; intros k.
  - done.
  - cbn [run_lengths]. rewrite lookup_nil. symmetry.
    apply lookup_ge_None_2. simpl. lia.
  - destruct k as [|k]; [done |].
    replace (2 * S k + 1)%nat with (S (S (2 * k + 1))) by lia.
    simpl. apply IH.
Qed.

Lemma expand_pairs_app d1 d2 k :
  length d1 = (2 * k)%nat →
  expand_pairs (d1 ++ d2) = expand_pairs d1 ++ expand_pairs d2.
Proof.
  revert k. induction d1 as [| a | a b rest IH] using pairs_ind; intros k Hk.
  - done.
  - simpl in Hk. lia.
  - cbn [app expand_pairs]. rewrite <- app_assoc.
    f_equal. apply (IH (k - 1)%nat). simpl in Hk. lia.
Qed.

(** ** Runs of one byte *)

Lemma split_run_step b m :
  (0 < m)%nat →
  split_run b m =
    b :: Z.of_nat (m `min` 255) :: split_run b (m - m `min` 255).
Proof.
  intros Hm. unfold split_run.
  destruct (decide (m < 255)%nat) as [Hlt | Hge].
  - rewrite Nat.min_l, Nat.sub_diag by lia.
    rewrite (Nat.div_small m), (Nat.mod_small m) by lia.
    by rewrite decide_False by lia.
  - rewrite Nat.min_r by lia.
    assert (m / 255 = 1 + (m - 255) / 255)%nat as ->.
    { replace m with (1 * 255 + (m - 255))%nat at 1 by lia.
      apply Nat.div_add_l. lia. }
    assert (m `mod` 255 = (m - 255) `mod` 255)%nat as ->.
    { replace m with ((m - 255) + 1 * 255)%nat at 1 by lia.
      apply Nat.Div0.mod_add. }
    by cbn [Nat.add replicate mjoin list_join app].
Qed.

Lemma full_records_length (b : Z) q :
  length (mjoin (replicate q [b; 255])) = (2 * q)%nat.
Proof.
  induction q as [|q IH]; [done |].
  change (mjoin (replicate (S q) [b; 255]))
    with (b :: 255 :: mjoin (replicate q [b; 255])).
  cbn [length]. rewrite IH. lia.
Qed.

Lemma split_run_length b n :
  length (split_run b n)
  = (2 * (n / 255) + (if decide (n `mod` 255 = 0)%nat then 0 else 2))%nat.
Proof.
  unfold split_run. rewrite length_app. f_equal.
  - apply full_records_length.
  - by destruct (decide _).
Qed.

Lemma run_scan_replicate n b i :
  (i < n)%nat → run_scan (replicate n b) i 1 = ((n - i) `min` 255)%nat.
Proof.
  intros Hi.
  destruct (run_scan_1 (replicate n b) i) as (Hr & Hle & _ & Hend).
  { by rewrite length_replicate. }
  rewrite length_replicate in Hle, Hend.
  destruct Hend as [H255 | [Hn | Hne]]; [lia | lia |].
  destruct (decide (i + run_scan (replicate n b) i 1 < n)%nat) as [Hlt | Hge];
    [| lia].
  rewrite !lookup_total_replicate_2 in Hne by lia. done.
Qed.

Lemma rle_loop_replicate n b m : ∀ i,
  (i + m)%nat = n → rle_loop (replicate n b) i [] = split_run b m.
Proof.
  induction (lt_wf m) as [m _ IH]. intros i Hn.
  destruct (decide (m = 0)%nat) as [-> | Hm].
  - rewrite rle_loop_ge; [done | rewrite length_replicate; lia].
  - rewrite rle_loop_step by (rewrite length_replicate; lia).
    rewrite run_scan_replicate, lookup_total_replicate_2 by lia.
    replace (n - i)%nat with m by lia.
    rewrite (IH (m - m `min` 255)%nat) by lia.
    symmetry. apply split_run_step. lia.
Qed.

(** ** Runs and concatenation *)

Lemma run_scan_is_run data i :
  (i < length data)%nat → is_run data i (run_scan data i 1).
Proof.
  intros Hi.
  destruct (run_scan_spec data i 1) as (Hr & Hle & Hall & Hend); [lia | lia | |].
  { intros j Hj. by replace j with 0%nat by lia; rewrite Nat.add_0_r. }
  repeat split; [lia | lia | done | done | done].
Qed.

Lemma is_run_le data i r r' : is_run data i r → is_run data i r' → (r' ≤ r)%nat.
Proof.
  intros (Hr & Hle & Hall & Hend) (Hr' & Hle' & Hall' & _).
  destruct (decide (r' ≤ r)%nat) as [|Hlt]; [done |]. exfalso.
  destruct Hend as [H255 | [Hlen | Hne]]; [lia | lia |].
  apply Hne. symmetry. apply Hall'. lia.
Qed.

Lemma is_run_unique data i r r' : is_run data i r → is_run data i r' → r = r'.
Proof.
  intros H H'. pose proof (is_run_le _ _ _ _ H H').
  pose proof (is_run_le _ _ _ _ H' H). lia.
Qed.

Lemma is_run_app_l x y i r :
  boundary x y → is_run x i r → is_run (x ++ y) i r.
Proof.
  intros Hxy (Hr & Hle & Hall & Hend).
  split; [done |]. split; [rewrite length_app; lia |]. split.
  - intros j Hj. rewrite !lookup_total_app_l by lia. by apply Hall.
  - destruct (decide ((i + r)%nat = length x)) as [Hlen | Hlen].
    + destruct y as [|b y'].
      * right; left. rewrite length_app. simpl. lia.
      * right; right. rewrite lookup_total_app_l by lia.
        rewrite lookup_total_app_r by lia.
        replace (i + r - length x)%nat with 0%nat by lia. simpl.
        apply (Hxy (x !!! i) b); [| done].
        rewrite last_lookup, <- (Hall (r - 1)%nat) by lia.
        replace (Init.Nat.pred (length x)) with (i + (r - 1))%nat by lia.
        apply list_lookup_lookup_total_lt. lia.
    + destruct Hend as [H255 | [Hend | Hne]]; [by left | done |].
      right; right. by rewrite !lookup_total_app_l by lia.
Qed.

Lemma is_run_app_r x y j r :
  is_run y j r → is_run (x ++ y) (length x + j) r.
Proof.
  intros (Hr & Hle & Hall & Hend).
  assert (∀ m, (x ++ y) !!! (length x + j + m)%nat = y !!! (j + m)%nat) as Hshift.
  { intros m. rewrite lookup_total_app_r by lia. f_equal. lia. }
  assert ((x ++ y) !!! (length x + j)%nat = y !!! j) as Hshift0.
  { rewrite lookup_total_app_r by lia. f_equal. lia. }
  split; [done |]. split; [rewrite length_app; lia |]. split.
  - intros m Hm. rewrite Hshift, Hshift0. by apply Hall.
  - rewrite Hshift, Hshift0, length_app.
    destruct Hend as [H255 | [Hend | Hne]]; [by left | right; left; lia |].
    by right; right.
Qed.

Lemma rle_loop_app_r x y j :
  rle_loop (x ++ y) (length x + j) [] = rle_loop y j [].
Proof.
  apply (rle_loop_ind y (λ j out, rle_loop (x ++ y) (length x + j) [] = out)).
  - intros m Hm. apply rle_loop_ge. rewrite length_app. lia.
  - intros m Hm IH.
    assert (run_scan (x ++ y) (length x + m) 1 = run_scan y m 1) as Hrun.
    { apply (is_run_unique (x ++ y) (length x + m)).
      - apply run_scan_is_run. rewrite length_app. lia.
      - by apply is_run_app_r, run_scan_is_run. }
    rewrite rle_loop_step by (rewrite length_app; lia).
    rewrite Hrun, <- Nat.add_assoc, IH.
    rewrite lookup_total_app_r by lia. do 3 f_equal. lia.
Qed.

Lemma rle_loop_app_l x y i :
  boundary x y → (i ≤ length x)%nat →
  rle_loop (x ++ y) i [] = rle_loop x i [] ++ rle_loop y 0 [].
Proof.
  intros Hxy.
  apply (rle_loop_ind x
    (λ i out, (i ≤ length x)%nat →
              rle_loop (x ++ y) i [] = out ++ rle_loop y 0 [])).
  - intros m Hm Hle. assert (m = (length x + 0)%nat) as -> by lia.
    by rewrite rle_loop_app_r.
  - intros m Hm IH _.
    pose proof (run_scan_is_run x m Hm) as Hx.
    assert (run_scan (x ++ y) m 1 = run_scan x m 1) as Hrun.
    { apply (is_run_unique (x ++ y) m).
      - apply run_scan_is_run. rewrite length_app. lia.
      - by apply is_run_app_l. }
    rewrite rle_loop_step by (rewrite length_app; lia).
    rewrite Hrun, IH by (destruct Hx as (_ & Hle & _); lia).
    by rewrite lookup_total_app_l by lia.
Qed.

(** A run of [n] copies of [b] between a prefix that does not end with [b]
    and a suffix that does not start with [b] is encoded on its own. *)
Lemma rle_loop_embedded_run pre suf b n :
  (0 < n)%nat → last pre ≠ Some b → head suf ≠ Some b →
  rle_loop (pre ++ replicate n b ++ suf) 0 []
  = rle_loop pre 0 [] ++ split_run b n ++ rle_loop suf 0 [].
Proof.
  intros Hn Hlast Hhead.
  rewrite rle_loop_app_l; [| | lia].
  - rewrite rle_loop_app_l; [| | lia].
    + by rewrite (rle_loop_replicate n b n 0%nat).
    + intros a c Ha Hc. rewrite last_lookup in Ha.
      apply lookup_replicate_1 in Ha as [-> _]. congruence.
  - intros a c Ha Hc. destruct n as [|n']; [lia |]. simpl in Hc.
    injection Hc as <-. congruence.
Qed.

(** ** The methods, run *)

Lemma stateless_ret {A} (a : A) : stateless (ret a).
Proof. by exists (Return a). Qed.

Lemma stateless_raise {A} e : stateless (@raise A e).
Proof. by exists (Raise e). Qed.

Lemma stateless_bind {A B} (m : method A) (k : A → method B) :
  stateless m → (∀ a, stateless (k a)) → stateless (bind m k).
Proof.
  intros [[a | e] Hm] Hk.
  - destruct (Hk a) as [o Ho]. exists o. intros self.
    unfold bind. by rewrite Hm, Ho.
  - exists (Raise e). intros self. unfold bind. by rewrite Hm.
Qed.

Lemma stateless_bytes ints : stateless (bytes ints).
Proof.
  unfold bytes. destruct (forallb _ _);
    [apply stateless_ret | apply stateless_raise].
Qed.

Lemma stateless_bytearray ints : stateless (bytearray ints).
Proof.
  unfold bytearray. destruct (forallb _ _);
    [apply stateless_ret | apply stateless_raise].
Qed.

Lemma stateless_rle_reverse data : stateless (rle_reverse data).
Proof. by exists (rle_reverse_loop data 0 []). Qed.

Lemma stateless_compress data meth : stateless (compress data meth).
Proof.
  unfold compress. apply stateless_bind; [| apply stateless_bytes].
  repeat case_match;
    repeat first [ apply stateless_bind | apply stateless_ret
                 | apply stateless_raise | intros ? ].
Qed.

Lemma stateless_decompress data meth : stateless (decompress data meth).
Proof.
  unfold decompress. apply stateless_bind; [| apply stateless_bytes].
  repeat case_match;
    repeat first [ apply stateless_bind | apply stateless_ret
                 | apply stateless_raise | apply stateless_rle_reverse
                 | apply stateless_bytearray | intros ? ].
Qed.

Lemma bind_Return {A B} (m : method A) (k : A → method B) a self self' :
  m self = (Return a, self') → bind m k self = k a self'.
Proof. intros H. unfold bind. by rewrite H. Qed.

Lemma bind_Raise {A B} (m : method A) (k : A → method B) e self self' :
  m self = (Raise e, self') → bind m k self = (Raise e, self').
Proof. intros H. unfold bind. by rewrite H. Qed.

(** Decide the comparisons of the selector with the three literals. *)
Ltac dispatch :=
  repeat match goal with
    | |- context [String.eqb ?a ?b] =>
        let v := eval vm_compute in (String.eqb a b) in
        change (String.eqb a b) with v
    end;
  cbv iota.

Lemma compress_01 data self :
  is_bytes data →
  compress data "01" self = (Return (rle_loop (delta_encoded data) 0 []), self).
Proof.
  intros Hd. unfold compress.
  rewrite (bind_Return _ _ (rle_loop (delta_encoded data) 0 []) self self);
    [| done].
  by apply bytes_ok, rle_loop_bytes, delta_encoded_bytes.
Qed.

Lemma compress_02 data self :
  is_bytes data → compress data "02" self = (Return (rle_loop data 0 []), self).
Proof.
  intros Hd. unfold compress.
  rewrite (bind_Return _ _ (rle_loop data 0 []) self self); [| done].
  by apply bytes_ok, rle_loop_bytes.
Qed.

Lemma compress_03 data self :
  is_bytes data → compress data "03" self = (Return (delta_encoded data), self).
Proof.
  intros Hd. unfold compress.
  rewrite (bind_Return _ _ (delta_encoded data) self self); [| done].
  by apply bytes_ok, delta_encoded_bytes.
Qed.

Lemma decompress_02_even data self :
  is_bytes data → Nat.Even (length data) →
  decompress data "02" self = (Return (expand_pairs data), self).
Proof.
  intros Hd [k Hk]. unfold decompress.
  rewrite (bind_Return _ _ (expand_pairs data) self self).
  - by apply bytes_ok, expand_pairs_bytes.
  - dispatch. unfold rle_reverse. by rewrite (rle_reverse_loop_even data k).
Qed.

Lemma decompress_01_even data self :
  is_bytes data → Nat.Even (length data) →
  decompress data "01" self
  = bytes (delta_reverse (expand_pairs data)) self.
Proof.
  intros Hd [k Hk]. unfold decompress.
  rewrite (bind_Return _ _ (delta_reverse (expand_pairs data)) self self);
    [done |].
  dispatch. rewrite (bind_Return _ _ (expand_pairs data) self self); [done |].
  unfold rle_reverse. by rewrite (rle_reverse_loop_even data k).
Qed.

Lemma decompress_03 data self :
  is_bytes data →
  decompress data "03" self = bytes (delta_reverse data) self.
Proof.
  intros Hd. unfold decompress.
  rewrite (bind_Return _ _ (delta_reverse data) self self); [done |].
  dispatch.
  by rewrite (bind_Return _ _ data self self) by by apply bytearray_ok.
Qed.

Lemma decompress_odd data meth self :
  meth = "01" ∨ meth = "02" → Nat.Odd (length data) →
  decompress data meth self = (Raise IndexError, self).
Proof.
  intros Hmeth [k Hk]. unfold decompress.
  apply bind_Raise.
  assert (rle_reverse data self = (Raise IndexError, self)) as Hrev.
  { unfold rle_reverse. rewrite (rle_reverse_loop_odd data k); [done | lia]. }
  destruct Hmeth as [-> | ->]; dispatch; [| done].
  by apply bind_Raise.
Qed.

Lemma selector_eqb_false meth :
  (∀ M, meth ≠ selector M) →
  String.eqb meth "01" = false ∧ String.eqb meth "02" = false
  ∧ String.eqb meth "03" = false.
Proof.
  intros H. repeat split; apply String.eqb_neq.
  - apply (H DeltaRLE).
  - apply (H RLEOnly).
  - apply (H DeltaOnly).
Qed.

(** * The claims *)

(** C1. Round trip: for each of the three methods M (DeltaRLE '01', RLEOnly
    '02', DeltaOnly '03') and every byte sequence x (empty, single-byte and
    with runs longer than 255 included), compressing x with M and
    decompressing the result with M returns x. *)
Theorem roundtrip self (M : Method) (x : list Z) :
  is_bytes x →
  (c <- compress x (selector M) ;; decompress c (selector M)) self
  = (Return x, self).
Proof.
  intros Hx. destruct M; cbn [selector].
  - rewrite (bind_Return _ _ _ _ _ (compress_01 x self Hx)).
    rewrite decompress_01_even.
    + rewrite expand_rle_loop, drop_0, delta_reverse_encoded by done.
      by apply bytes_ok.
    + by apply rle_loop_bytes, delta_encoded_bytes.
    + apply rle_loop_even.
  - rewrite (bind_Return _ _ _ _ _ (compress_02 x self Hx)).
    rewrite decompress_02_even.
    + by rewrite expand_rle_loop, drop_0.
    + by apply rle_loop_bytes.
    + apply rle_loop_even.
  - rewrite (bind_Return _ _ _ _ _ (compress_03 x self Hx)).
    rewrite decompress_03 by by apply delta_encoded_bytes.
    rewrite delta_reverse_encoded by done. by apply bytes_ok.
Qed.

Lemma roundtrip_witness :
  is_bytes [7; 7; 7; 200; 3]
  ∧ (c <- compress [7; 7; 7; 200; 3] "01" ;; decompress c "01") __init__
    = (Return [7; 7; 7; 200; 3], __init__).
Proof.
  assert (is_bytes [7; 7; 7; 200; 3]) as H.
  { solve_bytes. }
  split; [exact H | exact (roundtrip __init__ DeltaRLE _ H)].
Defined.

(** C2, as amended. Run-length reversal of an odd-length byte sequence, by
    decompress with method RLEOnly ('02') or in the first step of DeltaRLE
    ('01'), raises Python's IndexError at the subscript [data[i + 1]] and
    returns no output; that exception is none of the named error kinds. *)
Theorem odd_stream_raises_IndexError self (d : list Z) :
  is_bytes d →
  Nat.Odd (length d) →
  decompress d "02" self = (Raise IndexError, self)
  ∧ decompress d "01" self = (Raise IndexError, self)
  ∧ error_kind IndexError = None.
Proof.
  intros _ Hodd. split; [| split; [| done]].
  - apply decompress_odd; [by right | done].
  - apply decompress_odd; [by left | done].
Qed.

Lemma odd_stream_raises_IndexError_witness :
  decompress [5] "02" __init__ = (Raise IndexError, __init__)
  ∧ decompress [5] "01" __init__ = (Raise IndexError, __init__)
  ∧ error_kind IndexError = None.
Proof.
  apply (odd_stream_raises_IndexError __init__ [5]).
  - solve_bytes.
  - exists 0%nat. reflexivity.
Defined.

(** C2, as stated, fails on the one-byte stream [0x05]: decompress with
    method RLEOnly raises IndexError, and no MalformedRLEStream error. *)
Lemma odd_stream_not_MalformedRLEStream :
  decompress [5] "02" __init__ = (Raise IndexError, __init__)
  ∧ ¬ (∃ e self', decompress [5] "02" __init__ = (Raise e, self')
                  ∧ error_kind e = Some MalformedRLEStream).
Proof.
  split; [reflexivity |].
  intros (e & self' & Hrun & Hkind).
  assert (decompress [5] "02" __init__ = (Raise IndexError, __init__)) as Hrun'
    by reflexivity.
  rewrite Hrun' in Hrun. injection Hrun as <- _. discriminate Hkind.
Qed.

(** C3. For every byte sequence and every method value other than '01', '02'
    and '03', compress and decompress both fail with the InvalidMethod error
    (the ValueError of the dispatch) and produce no output. *)
Theorem invalid_method_rejected self (data : list Z) (meth : string) :
  (∀ M, meth ≠ selector M) →
  compress data meth self = (Raise invalid_method, self)
  ∧ decompress data meth self = (Raise invalid_method, self)
  ∧ error_kind invalid_method = Some InvalidMethod.
Proof.
  intros H. destruct (selector_eqb_false meth H) as (H1 & H2 & H3).
  split; [| split; [| done]].
  - unfold compress. apply bind_Raise. by rewrite H1, H2, H3.
  - unfold decompress. apply bind_Raise. by rewrite H1, H2, H3.
Qed.

Lemma invalid_method_rejected_witness :
  compress [1; 2; 3] "99" __init__ = (Raise invalid_method, __init__)
  ∧ decompress [1; 2; 3] "99" __init__ = (Raise invalid_method, __init__)
  ∧ error_kind invalid_method = Some InvalidMethod.
Proof.
  apply (invalid_method_rejected __init__ [1; 2; 3] "99").
  intros M. destruct M; discriminate.
Defined.

(** C4. For every input byte sequence, compress with method DeltaOnly ('03')
    returns, with no error, an output of the same length as the input, whose
    byte 0 is input byte 0 and whose byte i, for every i >= 1, is
    (Input[i] - Input[i-1]) mod 256; the empty sequence gives the empty
    sequence and a single byte is unchanged. *)
Theorem delta_only_output self (x : list Z) :
  is_bytes x →
  ∃ out,
    compress x "03" self = (Return out, self)
    ∧ length out = length x
    ∧ out !! 0%nat = x !! 0%nat
    ∧ (∀ i, (1 ≤ i < length x)%nat →
            out !! i = Some ((x !!! i - x !!! (i - 1)%nat) `mod` 256))
    ∧ (x = [] → out = [])
    ∧ (∀ b, x = [b] → out = [b]).
Proof.
  intros Hx. exists (delta_encoded x).
  split; [by apply compress_03 |].
  split; [apply delta_encoded_length |].
  split; [| split; [| split]].
  - destruct x as [|b x']; [done |].
    rewrite delta_encoded_lookup by (simpl; lia). done.
  - intros i Hi. rewrite delta_encoded_lookup by lia.
    unfold delta_item. rewrite bool_decide_eq_true_2 by lia.
    by rewrite land_255_mod.
  - by intros ->.
  - by intros b ->.
Qed.

Lemma delta_only_output_witness :
  ∃ out,
    compress [250; 3; 3] "03" __init__ = (Return out, __init__)
    ∧ length out = length [250; 3; 3]
    ∧ out !! 0%nat = [250; 3; 3] !! 0%nat
    ∧ (∀ i, (1 ≤ i < length [250; 3; 3])%nat →
            out !! i
            = Some (([250; 3; 3] !!! i - [250; 3; 3] !!! (i - 1)%nat) `mod` 256))
    ∧ ([250; 3; 3] = [] → out = [])
    ∧ (∀ b, [250; 3; 3] = [b] → out = [b]).
Proof.
  apply (delta_only_output __init__ [250; 3; 3]).
  solve_bytes.
Defined.

(** C5. In every output of compress with method RLEOnly ('02'), each run
    record's run-length byte is in [1, 255]; a run of more than 255
    identical bytes, wherever it stands in the input (after a prefix that
    does not end with the byte and before a suffix that does not start with
    it), is split into several consecutive records (full records of 255,
    then the remainder) between the records of the prefix and those of the
    suffix; in particular 300 identical bytes b are encoded as exactly the
    two records [b, 255] and [b, 45], and decoding these gives back the 300
    bytes. *)
Theorem rle_run_splitting self (x pre suf : list Z) (b : Z) (n : nat) :
  is_bytes x → is_byte b →
  (∃ out,
      compress x "02" self = (Return out, self)
      ∧ ∀ k runLength,
          out !! (2 * k + 1)%nat = Some runLength → 1 ≤ runLength ≤ 255)
  ∧ (is_bytes pre → is_bytes suf → (0 < n)%nat →
     last pre ≠ Some b → head suf ≠ Some b →
     ∃ out_pre out_suf,
       compress pre "02" self = (Return out_pre, self)
       ∧ compress suf "02" self = (Return out_suf, self)
       ∧ compress (pre ++ replicate n b ++ suf) "02" self
         = (Return (out_pre ++ split_run b n ++ out_suf), self))
  ∧ compress (replicate n b) "02" self = (Return (split_run b n), self)
  ∧ ((255 < n)%nat → (4 ≤ length (split_run b n))%nat)
  ∧ compress (replicate 300 b) "02" self = (Return [b; 255; b; 45], self)
  ∧ decompress [b; 255; b; 45] "02" self = (Return (replicate 300 b), self).
Proof.
  intros Hx Hb.
  assert (∀ m, compress (replicate m b) "02" self
               = (Return (split_run b m), self)) as Hrun.
  { intros m. rewrite compress_02 by by apply Forall_replicate.
    by rewrite (rle_loop_replicate m b m 0%nat). }
  split; [| split; [| split; [| split; [| split]]]].
  - exists (rle_loop x 0 []). split; [by apply compress_02 |].
    intros k runLength. apply rle_loop_run_length.
  - intros Hpre Hsuf Hn Hlast Hhead.
    exists (rle_loop pre 0 []), (rle_loop suf 0 []).
    rewrite !compress_02; [| | done | done].
    + by rewrite rle_loop_embedded_run.
    + apply Forall_app_2; [done |].
      apply Forall_app_2; [by apply Forall_replicate | done].
  - apply Hrun.
  - intros Hn. rewrite split_run_length.
    pose proof (Nat.div_mod_eq n 255) as Hdiv.
    pose proof (Nat.mod_upper_bound n 255 ltac:(lia)) as Hmod.
    destruct (decide _); lia.
  - apply Hrun.
  - rewrite decompress_02_even; [done | |].
    + solve_bytes.
    + by exists 2%nat.
Qed.

Lemma rle_run_splitting_witness :
  compress ([7; 9] ++ replicate 300 7 ++ [3]) "02" __init__
  = (Return ([7; 1; 9; 1] ++ [7; 255; 7; 45] ++ [3; 1]), __init__)
  ∧ compress (replicate 300 7) "02" __init__ = (Return [7; 255; 7; 45], __init__)
  ∧ decompress [7; 255; 7; 45] "02" __init__
    = (Return (replicate 300 7), __init__).
Proof.
  assert (is_bytes [7; 7; 9]) as Hx.
  { solve_bytes. }
  assert (is_byte 7) as Hb.
  { unfold is_byte; lia. }
  assert (is_bytes [7; 9]) as Hpre.
  { solve_bytes. }
  assert (is_bytes [3]) as Hsuf.
  { solve_bytes. }
  assert (0 < 300)%nat as Hn.
  { lia. }
  assert (last [7; 9] ≠ Some 7) as Hlast.
  { simpl. discriminate. }
  assert (head [3] ≠ Some 7) as Hhead.
  { simpl. discriminate. }
  destruct (rle_run_splitting __init__ [7; 7; 9] [7; 9] [3] 7 300 Hx Hb)
    as (_ & Hin & _ & _ & Henc & Hdec).
  destruct (Hin Hpre Hsuf Hn Hlast Hhead) as (out_pre & out_suf & Hp & Hs & Hall).
  assert (compress [7; 9] "02" __init__ = (Return [7; 1; 9; 1], __init__)) as Hp'.
  { reflexivity. }
  assert (compress [3] "02" __init__ = (Return [3; 1], __init__)) as Hs'.
  { reflexivity. }
  rewrite Hp' in Hp. injection Hp as <-.
  rewrite Hs' in Hs. injection Hs as <-.
  split; [exact Hall |].
  split; [exact Henc | exact Hdec].
Defined.



(** C7. compress of [10, 10, 10, 12, 12] with method DeltaRLE ('01') delta
    encodes it to [10, 0, 0, 2, 0] and run-length encodes that to
    [10,1, 0,2, 2,1, 0,1]; decompress of these bytes with DeltaRLE returns
    [10, 10, 10, 12, 12]. *)
Theorem chained_example self :
  _apply_delta_encoding [10; 10; 10; 12; 12] self
  = (Return [10; 0; 0; 2; 0], self)
  ∧ _apply_rle [10; 0; 0; 2; 0] self
    = (Return [10; 1; 0; 2; 2; 1; 0; 1], self)
  ∧ compress [10; 10; 10; 12; 12] "01" self
    = (Return [10; 1; 0; 2; 2; 1; 0; 1], self)
  ∧ decompress [10; 1; 0; 2; 2; 1; 0; 1] "01" self
    = (Return [10; 10; 10; 12; 12], self).
Proof. repeat split; reflexivity. Qed.

(** C8. For each of the three methods, compress of the empty byte sequence
    is the empty byte sequence, and so is decompress of it. *)
Theorem empty_input self (M : Method) :
  compress [] (selector M) self = (Return [], self)
  ∧ decompress [] (selector M) self = (Return [], self).
Proof. destruct M; split; reflexivity. Qed.

(** C9. compress and decompress are functions of (data, method) alone: the
    result does not depend on the instance, so not on its last_byte field,
    and the instance is left as it was; two calls with the same arguments
    on any two instances return the same result. *)
Theorem pure_in_arguments (data : list Z) (meth : string)
    (self1 self2 : SimpleCompressionSystem) :
  (compress data meth self1).1 = (compress data meth self2).1
  ∧ (compress data meth self1).2 = self1
  ∧ last_byte (compress data meth self1).2 = last_byte self1
  ∧ (decompress data meth self1).1 = (decompress data meth self2).1
  ∧ (decompress data meth self1).2 = self1
  ∧ last_byte (decompress data meth self1).2 = last_byte self1.
Proof.
  destruct (stateless_compress data meth) as [oc Hc].
  destruct (stateless_decompress data meth) as [od Hd].
  by rewrite !Hc, !Hd.
Qed.

(** C10. For every even-length byte sequence d, whether or not the encoder
    can produce it, decompress with method RLEOnly ('02') returns without
    error the in-order concatenation, over the consecutive pairs
    [value, runLength] of d, of runLength copies of value; the length of the
    output is the sum of the bytes at the odd indices of d, and a pair with
    run-length 0 is accepted and contributes nothing. *)
Theorem rle_only_decodes_even_stream self (d : list Z) :
  is_bytes d → Nat.Even (length d) →
  decompress d "02" self = (Return (expand_pairs d), self)
  ∧ Z.of_nat (length (expand_pairs d)) = sum_bytes (run_lengths d)
  ∧ (∀ k, run_lengths d !! k = d !! (2 * k + 1)%nat)
  ∧ (∀ d1 value d2,
       Nat.Even (length d1) → d = d1 ++ value :: 0 :: d2 →
       decompress d "02" self = decompress (d1 ++ d2) "02" self).
Proof.
  intros Hd Heven. split; [by apply decompress_02_even |].
  split; [by apply expand_pairs_length |].
  split; [intros k; apply run_lengths_lookup |].
  intros d1 value d2 [k1 Hk1] ->.
  apply Forall_app in Hd as [Hd1 Hd2].
  inversion_clear Hd2 as [|? ? Hv Hd2']. inversion_clear Hd2' as [|? ? _ Hd2].
  destruct Heven as [k Hk]. rewrite length_app in Hk. simpl in Hk.
  rewrite !decompress_02_even.
  - rewrite !(expand_pairs_app d1 _ k1) by done. done.
  - by apply Forall_app_2.
  - exists (k - 1)%nat. rewrite length_app. lia.
  - apply Forall_app_2; [done |]. solve_bytes.
  - exists k. rewrite length_app. simpl. lia.
Qed.

Lemma rle_only_decodes_even_stream_witness :
  decompress [9; 0; 4; 3] "02" __init__ = (Return [4; 4; 4], __init__)
  ∧ decompress [9; 0; 4; 3] "02" __init__ = decompress [4; 3] "02" __init__.
Proof.
  assert (is_bytes [9; 0; 4; 3]) as Hd.
  { solve_bytes. }
  assert (Nat.Even (length [9; 0; 4; 3])) as Heven.
  { exists 2%nat. reflexivity. }
  destruct (rle_only_decodes_even_stream __init__ [9; 0; 4; 3] Hd Heven)
    as (Hrun & _ & _ & Hzero).
  split; [exact Hrun |].
  apply (Hzero [] 9 [4; 3]); [exists 0%nat; reflexivity | reflexivity].
Defined.

(** * Further properties of the codec *)

(** ** The delta reversal as a running sum *)

Lemma lookup_total_eq (l1 l2 : list Z) i :
  l1 !! i = l2 !! i → l1 !!! i = l2 !!! i.
Proof. intros H. by rewrite !list_lookup_total_alt, H. Qed.

(** After the [k] first iterations of the reversal on any byte array [d],
    each byte up to index [k] is the sum modulo 256 of the input byte and of
    the reconstructed byte before it; the others are untouched. *)
Lemma delta_reverse_running d k :
  is_bytes d → (k < length d)%nat →
  let D := foldl delta_reverse_step d (seq 1 k) in
  length D = length d
  ∧ is_bytes D
  ∧ D !! 0%nat = d !! 0%nat
  ∧ (∀ j, (1 ≤ j ≤ k)%nat →
          D !!! j = (d !!! j + D !!! (j - 1)%nat) `mod` 256)
  ∧ (∀ j, (k < j)%nat → D !! j = d !! j).
Proof.
  intros Hd. induction k as [|k IH]; intros Hk; cbn zeta.
  - simpl. split; [done |]. split; [done |]. split; [done |].
    split; [intros j Hj; lia | done].

  - destruct IH as (Hlen & HD & H0 & Hlow & Hhigh); [lia |]. cbn zeta in *.
    rewrite seq_S, foldl_app. cbn [foldl Nat.add].
    set (D := foldl delta_reverse_step d (seq 1 k)) in *.
    unfold delta_reverse_step.
    split; [by rewrite length_insert |].
    split; [apply Forall_insert; [done | apply land_255_byte] |].
    split; [by rewrite list_lookup_insert_ne by lia |].
    split.
    + intros j Hj. destruct (decide (j = S k)) as [-> | Hne].
      * rewrite list_lookup_total_insert_eq by lia.
        rewrite list_lookup_total_insert_ne by lia.
        rewrite land_255_mod.
        by rewrite (lookup_total_eq D d (S k)) by (apply Hhigh; lia).
      * rewrite !list_lookup_total_insert_ne by lia. apply Hlow. lia.
    + intros j Hj. rewrite list_lookup_insert_ne by lia. apply Hhigh. lia.
Qed.

Lemma delta_reverse_spec d :
  is_bytes d →
  length (delta_reverse d) = length d
  ∧ is_bytes (delta_reverse d)
  ∧ delta_reverse d !! 0%nat = d !! 0%nat
  ∧ (∀ j, (1 ≤ j < length d)%nat →
          delta_reverse d !!! j
          = (d !!! j + delta_reverse d !!! (j - 1)%nat) `mod` 256).
Proof.
  intros Hd. unfold delta_reverse.
  destruct (decide (length d = 0)%nat) as [H0 | Hpos].
  - rewrite H0. simpl. split; [done |]. split; [done |]. split; [done |].
    intros j Hj. lia.
  - destruct (delta_reverse_running d (length d - 1) Hd)
      as (Hlen & HD & Hfirst & Hlow & _); [lia |].
    split; [done |]. split; [done |]. split; [done |].
    intros j Hj. apply Hlow. lia.
Qed.

Lemma delta_redo a b :
  is_byte a → Z.land ((a + b) `mod` 256 - b) 255 = a.
Proof.
  intros Ha. rewrite land_255_mod, Zminus_mod_idemp_l.
  replace (a + b - b) with a by lia. by apply Z.mod_small.
Qed.

Lemma delta_encoded_reverse d :
  is_bytes d → delta_encoded (delta_reverse d) = d.
Proof.
  intros Hd. destruct (delta_reverse_spec d Hd) as (Hlen & HD & H0 & Hsum).
  apply list_eq. intros i.
  destruct (decide (i < length d)%nat) as [Hi | Hi].
  - rewrite delta_encoded_lookup by lia.
    rewrite (list_lookup_lookup_total_lt d i) by done. f_equal.
    unfold delta_item. case_bool_decide as Hpos.
    + rewrite (Hsum i) by lia. apply delta_redo. by apply lookup_total_byte.
    + assert (i = 0%nat) as -> by lia. by apply lookup_total_eq.
  - rewrite !lookup_ge_None_2; [done | lia |].
    rewrite delta_encoded_length. lia.
Qed.

(** X1. For every byte sequence d, decompress with method DeltaOnly ('03')
    returns, with no error, an output of the same length whose byte 0 is
    input byte 0 and whose byte i, for i >= 1, is the sum modulo 256 of
    input byte i and of the already reconstructed output byte i - 1. *)
Theorem delta_only_decode_output self (d : list Z) :
  is_bytes d →
  ∃ out,
    decompress d "03" self = (Return out, self)
    ∧ length out = length d
    ∧ out !! 0%nat = d !! 0%nat
    ∧ (∀ i, (1 ≤ i < length d)%nat →
            out !! i = Some ((d !!! i + out !!! (i - 1)%nat) `mod` 256)).
Proof.
  intros Hd. destruct (delta_reverse_spec d Hd) as (Hlen & HD & H0 & Hsum).
  exists (delta_reverse d). split.
  - rewrite decompress_03 by done. by apply bytes_ok.
  - split; [done |]. split; [done |]. intros i Hi.
    rewrite <- (Hsum i Hi). apply list_lookup_lookup_total_lt. lia.
Qed.

Lemma delta_only_decode_output_witness :
  ∃ out,
    decompress [250; 9; 0] "03" __init__ = (Return out, __init__)
    ∧ length out = length [250; 9; 0]
    ∧ out !! 0%nat = [250; 9; 0] !! 0%nat
    ∧ (∀ i, (1 ≤ i < length [250; 9; 0])%nat →
            out !! i
            = Some (([250; 9; 0] !!! i + out !!! (i - 1)%nat) `mod` 256)).
Proof.
  apply (delta_only_decode_output __init__ [250; 9; 0]). solve_bytes.
Defined.

(** X2. DeltaOnly is a bijection on byte sequences: every byte sequence d is
    a DeltaOnly stream, and compressing what it decompresses to gives d
    back. *)
Theorem delta_only_decode_then_encode self (d : list Z) :
  is_bytes d →
  (x <- decompress d "03" ;; compress x "03") self = (Return d, self).
Proof.
  intros Hd. destruct (delta_reverse_spec d Hd) as (_ & HD & _).
  rewrite (bind_Return _ _ (delta_reverse d) self self).
  - rewrite compress_03 by done. by rewrite delta_encoded_reverse.
  - rewrite decompress_03 by done. by apply bytes_ok.
Qed.

Lemma delta_only_decode_then_encode_witness :
  (x <- decompress [250; 9; 0] "03" ;; compress x "03") __init__
  = (Return [250; 9; 0], __init__).
Proof.
  apply (delta_only_decode_then_encode __init__ [250; 9; 0]). solve_bytes.
Defined.

(** ** The records of the run-length encoding *)

Lemma rle_loop_head data i : rle_loop data i [] !! 0%nat = data !! i.
Proof.
  destruct (decide (i < length data)%nat) as [Hi | Hi].
  - rewrite rle_loop_step by done. simpl. symmetry.
    by apply list_lookup_lookup_total_lt.
  - rewrite rle_loop_ge by lia. by rewrite (lookup_ge_None_2 data) by lia.
Qed.

Lemma rle_loop_maximal data i k value runLength value' :
  rle_loop data i [] !! (2 * k)%nat = Some value →
  rle_loop data i [] !! (2 * k + 1)%nat = Some runLength →
  rle_loop data i [] !! (2 * k + 2)%nat = Some value' →
  value = value' → runLength = 255.
Proof.
  revert k.
  apply (rle_loop_ind data
    (λ _ out, ∀ k, out !! (2 * k)%nat = Some value →
                   out !! (2 * k + 1)%nat = Some runLength →
                   out !! (2 * k + 2)%nat = Some value' →
                   value = value' → runLength = 255)).
  - intros _ _ k Hk. by rewrite lookup_nil in Hk.
  - intros j Hj IH k Hv Hn Hv' Heq.
    destruct (run_scan_1 data j Hj) as (Hr & Hle & _ & Hend).
    destruct k as [|k].
    + simpl in Hv, Hn, Hv'. injection Hv as <-. injection Hn as <-.
      rewrite rle_loop_head in Hv'.
      pose proof (lookup_lt_Some _ _ _ Hv') as Hlt.
      apply list_lookup_total_correct in Hv'.
      destruct Hend as [H255 | [Hlen | Hne]]; [lia | lia | congruence].
    + replace (2 * S k)%nat with (S (S (2 * k))) in Hv by lia.
      replace (2 * S k + 1)%nat with (S (S (2 * k + 1))) in Hn by lia.
      replace (2 * S k + 2)%nat with (S (S (2 * k + 2))) in Hv' by lia.
      simpl in Hv, Hn, Hv'. by apply (IH k).
Qed.

Lemma rle_loop_ratio data i :
  (i ≤ length data)%nat →
  (2 * (length data - i) ≤ 255 * length (rle_loop data i []))%nat.
Proof.
  apply (rle_loop_ind data
    (λ i out, i ≤ length data → 2 * (length data - i) ≤ 255 * length out)%nat).
  - intros j Hj _. lia.
  - intros j Hj IH _. destruct (run_scan_1 data j Hj) as (Hr & Hle & _).
    specialize (IH Hle). simpl. lia.
Qed.

(** X3. The records of compress with method RLEOnly ('02') are maximal runs:
    when two consecutive records carry the same value, the first of them is
    a full record of run length 255. *)
Theorem rle_records_maximal self (x : list Z) :
  is_bytes x →
  ∃ out,
    compress x "02" self = (Return out, self)
    ∧ ∀ k value runLength value',
        out !! (2 * k)%nat = Some value →
        out !! (2 * k + 1)%nat = Some runLength →
        out !! (2 * k + 2)%nat = Some value' →
        value = value' → runLength = 255.
Proof.
  intros Hx. exists (rle_loop x 0 []). split; [by apply compress_02 |].
  intros k value runLength value'. apply rle_loop_maximal.
Qed.

Lemma rle_records_maximal_witness :
  ∃ out,
    compress (replicate 256 4 ++ [5]) "02" __init__ = (Return out, __init__)
    ∧ ∀ k value runLength value',
        out !! (2 * k)%nat = Some value →
        out !! (2 * k + 1)%nat = Some runLength →
        out !! (2 * k + 2)%nat = Some value' →
        value = value' → runLength = 255.
Proof.
  apply (rle_records_maximal __init__ (replicate 256 4 ++ [5])).
  apply Forall_app_2; [apply Forall_replicate; unfold is_byte; lia |].
  solve_bytes.
Defined.

(** X4. The output of compress with method RLEOnly ('02') has an even
    number of bytes, and the run lengths of its records add up to the length
    of the input. *)
Theorem rle_run_lengths_sum self (x : list Z) :
  is_bytes x →
  ∃ out,
    compress x "02" self = (Return out, self)
    ∧ Nat.Even (length out)
    ∧ sum_bytes (run_lengths out) = Z.of_nat (length x).
Proof.
  intros Hx. exists (rle_loop x 0 []). split; [by apply compress_02 |].
  split; [apply rle_loop_even |].
  rewrite <- expand_pairs_length by by apply rle_loop_bytes.
  by rewrite expand_rle_loop, drop_0.
Qed.

Lemma rle_run_lengths_sum_witness :
  ∃ out,
    compress [3; 3; 3; 8] "02" __init__ = (Return out, __init__)
    ∧ Nat.Even (length out)
    ∧ sum_bytes (run_lengths out) = Z.of_nat (length [3; 3; 3; 8]).
Proof. apply (rle_run_lengths_sum __init__ [3; 3; 3; 8]). solve_bytes. Defined.

(** X5. compress with method RLEOnly ('02') never shrinks its input below
    2/255 of its size: 2 * len(input) <= 255 * len(output); in particular
    the output of a non-empty input is not empty. *)
Theorem rle_best_case self (x : list Z) :
  is_bytes x →
  ∃ out,
    compress x "02" self = (Return out, self)
    ∧ (2 * length x ≤ 255 * length out)%nat
    ∧ (x ≠ [] → out ≠ []).
Proof.
  intros Hx. exists (rle_loop x 0 []). split; [by apply compress_02 |].
  pose proof (rle_loop_ratio x 0 ltac:(lia)) as Hratio.
  split; [lia |].
  intros Hne Hout. rewrite Hout in Hratio. simpl in Hratio.
  destruct x; [done | simpl in Hratio; lia].
Qed.

Lemma rle_best_case_witness :
  ∃ out,
    compress [3; 3; 3; 8] "02" __init__ = (Return out, __init__)
    ∧ (2 * length [3; 3; 3; 8] ≤ 255 * length out)%nat
    ∧ ([3; 3; 3; 8] ≠ [] → out ≠ []).
Proof. apply (rle_best_case __init__ [3; 3; 3; 8]). solve_bytes. Defined.

(** X6. Run-length decoding distributes over concatenation at a record
    boundary: for byte sequences d1 and d2 of even length, decompress with
    method RLEOnly ('02') of d1 followed by d2 is the output for d1 followed
    by the output for d2. *)
Theorem rle_decode_concat self (d1 d2 : list Z) :
  is_bytes d1 → is_bytes d2 →
  Nat.Even (length d1) → Nat.Even (length d2) →
  ∃ out1 out2,
    decompress d1 "02" self = (Return out1, self)
    ∧ decompress d2 "02" self = (Return out2, self)
    ∧ decompress (d1 ++ d2) "02" self = (Return (out1 ++ out2), self).
Proof.
  intros Hd1 Hd2 [k1 Hk1] [k2 Hk2].
  exists (expand_pairs d1), (expand_pairs d2).
  rewrite !decompress_02_even.
  - by rewrite (expand_pairs_app d1 d2 k1).
  - by apply Forall_app_2.
  - exists (k1 + k2)%nat. rewrite length_app. lia.
  - done.
  - by exists k2.
  - done.
  - by exists k1.
Qed.

Lemma rle_decode_concat_witness :
  ∃ out1 out2,
    decompress [7; 2] "02" __init__ = (Return out1, __init__)
    ∧ decompress [9; 1; 7; 3] "02" __init__ = (Return out2, __init__)
    ∧ decompress ([7; 2] ++ [9; 1; 7; 3]) "02" __init__
      = (Return (out1 ++ out2), __init__).
Proof.
  apply (rle_decode_concat __init__ [7; 2] [9; 1; 7; 3]).
  - solve_bytes.
  - solve_bytes.
  - exists 1%nat. reflexivity.
  - exists 2%nat. reflexivity.
Defined.

(** X7. Run-length encoding distributes over concatenation where no run
    crosses the cut: when the last byte of x and the first byte of y differ,
    compress with method RLEOnly ('02') of x followed by y is the output for
    x followed by the output for y. *)
Theorem rle_encode_concat self (x y : list Z) :
  is_bytes x → is_bytes y → boundary x y →
  ∃ out1 out2,
    compress x "02" self = (Return out1, self)
    ∧ compress y "02" self = (Return out2, self)
    ∧ compress (x ++ y) "02" self = (Return (out1 ++ out2), self).
Proof.
  intros Hx Hy Hxy. exists (rle_loop x 0 []), (rle_loop y 0 []).
  rewrite !compress_02; [| by apply Forall_app_2 | done | done].
  by rewrite rle_loop_app_l by (done || lia).
Qed.

Lemma rle_encode_concat_witness :
  ∃ out1 out2,
    compress [7; 7] "02" __init__ = (Return out1, __init__)
    ∧ compress [9; 7; 7] "02" __init__ = (Return out2, __init__)
    ∧ compress ([7; 7] ++ [9; 7; 7]) "02" __init__
      = (Return (out1 ++ out2), __init__).
Proof.
  apply (rle_encode_concat __init__ [7; 7] [9; 7; 7]).
  - solve_bytes.
  - solve_bytes.
  - intros a b Ha Hb. simpl in Ha, Hb.
    injection Ha as <-. injection Hb as <-. lia.
Defined.

(** ** The chained method *)

(** X8. DeltaRLE is the composition of the two single methods: on byte
    sequences, compress with '01' is compress with '03' followed by compress
    with '02', and decompress with '01' is decompress with '02' followed by
    decompress with '03', errors included. *)
Theorem delta_rle_composes self (data : list Z) :
  is_bytes data →
  compress data "01" self
  = (e <- compress data "03" ;; compress e "02") self
  ∧ decompress data "01" self
    = (e <- decompress data "02" ;; decompress e "03") self.
Proof.
  intros Hd. split.
  - rewrite (bind_Return _ _ _ _ _ (compress_03 data self Hd)).
    rewrite compress_01, compress_02; [done | | done].
    by apply delta_encoded_bytes.
  - destruct (Nat.Even_or_Odd (length data)) as [Heven | Hodd].
    + rewrite (bind_Return _ _ _ _ _ (decompress_02_even data self Hd Heven)).
      rewrite decompress_01_even, decompress_03; [done | | done | done].
      by apply expand_pairs_bytes.
    + rewrite (bind_Raise _ _ IndexError self self);
        by apply decompress_odd; [by left + right |].
Qed.

Lemma delta_rle_composes_witness :
  compress [5; 6; 7; 8] "01" __init__
  = (e <- compress [5; 6; 7; 8] "03" ;; compress e "02") __init__
  ∧ decompress [5; 6; 7; 8] "01" __init__
    = (e <- decompress [5; 6; 7; 8] "02" ;; decompress e "03") __init__.
Proof. apply (delta_rle_composes __init__ [5; 6; 7; 8]). solve_bytes. Defined.

Lemma delta_encoded_replicate b n :
  delta_encoded (replicate (S n) b) = b :: replicate n 0.
Proof.
  apply list_eq. intros i.
  destruct (decide (i < S n)%nat) as [Hi | Hi].
  - rewrite delta_encoded_lookup by (rewrite length_replicate; lia).
    unfold delta_item. destruct i as [|i].
    + by rewrite bool_decide_eq_false_2 by lia.
    + rewrite bool_decide_eq_true_2 by lia.
      rewrite !lookup_total_replicate_2 by lia.
      rewrite Z.sub_diag. simpl. symmetry. apply lookup_replicate_2. lia.
  - rewrite !lookup_ge_None_2; [done | |].
    + simpl. rewrite length_replicate. lia.
    + rewrite delta_encoded_length, length_replicate. lia.
Qed.

(** X9. compress with method DeltaRLE ('01') of n + 1 copies of a byte b:
    the delta step leaves b followed by n zeros, so for b <> 0 the output is
    the record [b, 1] followed by the records of the run of n zeros, and for
    b = 0 it is the records of the run of n + 1 zeros. *)
Theorem delta_rle_constant_input self (b : Z) (n : nat) :
  is_byte b →
  compress (replicate (S n) b) "01" self
  = (Return (if decide (b = 0) then split_run 0 (S n)
             else b :: 1 :: split_run 0 n), self).
Proof.
  intros Hb. rewrite compress_01 by by apply Forall_replicate.
  rewrite delta_encoded_replicate. do 2 f_equal.
  destruct (decide (b = 0)) as [-> | Hne].
  - change (0 :: replicate n 0) with (replicate (S n) 0).
    by rewrite (rle_loop_replicate (S n) 0 (S n) 0%nat).
  - change (b :: replicate n 0) with ([b] ++ replicate n 0).
    rewrite rle_loop_app_l; [| | simpl; lia].
    + by rewrite (rle_loop_replicate n 0 n 0%nat).
    + intros a c Ha Hc. injection Ha as <-.
      destruct n; simpl in Hc; [done |]. by injection Hc as <-.
Qed.

Lemma delta_rle_constant_input_witness :
  compress (replicate 301 9) "01" __init__
  = (Return [9; 1; 0; 255; 0; 45], __init__).
Proof.
  apply (delta_rle_constant_input __init__ 9 300). unfold is_byte. lia.
Defined.

(** * The shell *)

(** ** The codec on the three valid selectors *)

Lemma codec_valid (M : Method) (x : list Z) self :
  is_bytes x →
  ∃ c,
    compress x (selector M) self = (Return c, self)
    ∧ is_bytes c
    ∧ decompress c (selector M) self = (Return x, self)
    ∧ (x = [] → c = []).
Proof.
  intros Hx. destruct M; cbn [selector].
  - exists (rle_loop (delta_encoded x) 0 []).
    assert (is_bytes (rle_loop (delta_encoded x) 0 [])) as Hc
      by by apply rle_loop_bytes, delta_encoded_bytes.
    split; [by apply compress_01 |]. split; [done |]. split.
    + rewrite decompress_01_even; [| done | apply rle_loop_even].
      rewrite expand_rle_loop, drop_0, delta_reverse_encoded by done.
      by apply bytes_ok.
    + by intros ->.
  - exists (rle_loop x 0 []).
    assert (is_bytes (rle_loop x 0 [])) as Hc by by apply rle_loop_bytes.
    split; [by apply compress_02 |]. split; [done |]. split.
    + rewrite decompress_02_even; [| done | apply rle_loop_even].
      by rewrite expand_rle_loop, drop_0.
    + by intros ->.
  - exists (delta_encoded x).
    assert (is_bytes (delta_encoded x)) as Hc by by apply delta_encoded_bytes.
    split; [by apply compress_03 |]. split; [done |]. split.
    + rewrite decompress_03 by done.
      rewrite delta_reverse_encoded by done. by apply bytes_ok.
    + by intros ->.
Qed.

Lemma not_a_method_selector (M : Method) : not_a_method (selector M) = false.
Proof. by destruct M. Qed.

(** ** Running a shell computation *)

Lemma run_bind {A B} (m : io A) (k : A → io B) w :
  (m ≫= k) w
  = match m w with
    | (Normal a, w') => k a w'
    | (Continue, w') => (Continue, w')
    | (Break, w') => (Break, w')
    | (Raised e, w') => (Raised e, w')
    end.
Proof. reflexivity. Qed.

Lemma run_call {A} (m : method A) self a w :
  m self = (Return a, self) → call m self w = (Normal (a, self), w).
Proof. intros H. unfold call. by rewrite H. Qed.

Lemma run_call_raise {A} (m : method A) self e w :
  m self = (Raise e, self) → call m self w = (Raised (CodecError e), w).
Proof. intros H. unfold call. by rewrite H. Qed.

(** X10. benchmark of a non-empty file with one of the three methods never
    fails: it prints the size of the file, the size of the compressed bytes
    with the ratio of the two, and as the size of the decompressed bytes the
    size of the file again; it leaves the files and the input untouched. *)
Theorem benchmark_reports_round_trip (M : Method) (file_path : string)
    (original : list Z) (w : world) :
  files w !! file_path = Some (File original) →
  is_bytes original → original ≠ [] →
  ∃ compressed,
    compress original (selector M) __init__ = (Return compressed, __init__)
    ∧ benchmark file_path (selector M) w
      = (Normal (),
         {| files := files w; stdin := stdin w;
            stdout := stdout w ++
              [Testing file_path (length original);
               Compressed (length compressed)
                 (length compressed, length original);
               Decompressed (length original)] |}).
Proof.
  intros Hfile Hbytes Hne.
  destruct (codec_valid M original __init__ Hbytes) as (c & Hc & _ & Hd & _).
  exists c. split; [done |].
  unfold benchmark. rewrite run_bind. unfold read_file at 1. rewrite Hfile.
  rewrite run_bind. cbn [print files stdin stdout].
  rewrite run_bind, (run_call _ _ _ _ Hc).
  rewrite run_bind. unfold true_div at 1.
  rewrite decide_False by (by destruct original).
  rewrite run_bind. cbn [print files stdin stdout].
  rewrite run_bind, (run_call _ _ _ _ Hd).
  unfold print. cbn [files stdin stdout]. by rewrite <- !app_assoc.
Qed.

(** ** What the shell does to the files *)

Lemma keeps_files_bind {A B} (m : io A) (k : A → io B) :
  keeps_files m → (∀ a, keeps_files (k a)) → keeps_files (m ≫= k).
Proof.
  intros Hm Hk w. rewrite run_bind. specialize (Hm w).
  destruct (m w) as [[a | | | e] w']; simpl in *; [| done | done | done].
  by rewrite Hk.
Qed.

Lemma keeps_files_ret {A} (a : A) : keeps_files (mret a).
Proof. by intros w. Qed.

Lemma keeps_files_fmap {A B} (f : A → B) (m : io A) :
  keeps_files m → keeps_files (f <$> m).
Proof.
  intros Hm. apply keeps_files_bind; [done |].
  intros a. apply keeps_files_ret.
Qed.

Lemma keeps_files_print l : keeps_files (print l).
Proof. by intros w. Qed.

Lemma keeps_files_input prompt : keeps_files (input prompt).
Proof. intros w. unfold input. by destruct (stdin w). Qed.

Lemma keeps_files_path_exists path : keeps_files (path_exists path).
Proof. by intros w. Qed.

Lemma keeps_files_read_file path : keeps_files (read_file path).
Proof. intros w. unfold read_file. by repeat case_match. Qed.

Lemma keeps_files_true_div a b : keeps_files (true_div a b).
Proof. intros w. unfold true_div. by case_decide. Qed.

Lemma keeps_files_call {A} (m : method A) self : keeps_files (call m self).
Proof. intros w. unfold call. by repeat case_match. Qed.

Lemma keeps_files_continue {A} : keeps_files (@continue A).
Proof. by intros w. Qed.

Lemma keeps_files_break {A} : keeps_files (@break A).
Proof. by intros w. Qed.

(** Decompose a shell computation along its binds and branches. *)
Ltac keeps_files_tac :=
  repeat first
    [ apply keeps_files_print | apply keeps_files_input
    | apply keeps_files_path_exists | apply keeps_files_read_file
    | apply keeps_files_true_div | apply keeps_files_call
    | apply keeps_files_continue | apply keeps_files_break
    | apply keeps_files_ret | apply keeps_files_fmap
    | apply keeps_files_bind
    | match goal with
      | |- keeps_files (if ?b then _ else _) => destruct b
      | |- keeps_files (let '(_, _) := ?p in _) => destruct p
      | |- ∀ _, _ => intros ?
      end ].

Lemma keeps_files_benchmark file_path meth :
  keeps_files (benchmark file_path meth).
Proof. unfold benchmark. keeps_files_tac. Qed.

Lemma keeps_files_print_methods title : keeps_files (print_methods title).
Proof. unfold print_methods. keeps_files_tac. Qed.

Lemma writes_of_keeps {A} P (m : io A) :
  keeps_files m → writes_at_most_one P m.
Proof. intros Hm w. left. apply Hm. Qed.

Lemma writes_after_keeps {A B} P (m : io A) (k : A → io B) :
  keeps_files m → (∀ a, writes_at_most_one P (k a)) →
  writes_at_most_one P (m ≫= k).
Proof.
  intros Hm Hk w. rewrite run_bind. specialize (Hm w).
  destruct (m w) as [[a | | | e] w']; simpl in *;
    [| by left | by left | by left].
  rewrite <- Hm. apply Hk.
Qed.

Lemma keeps_after_writes {A B} P (m : io A) (k : A → io B) :
  writes_at_most_one P m → (∀ a, keeps_files (k a)) →
  writes_at_most_one P (m ≫= k).
Proof.
  intros Hm Hk w. rewrite run_bind. specialize (Hm w).
  destruct (m w) as [[a | | | e] w']; simpl in *; [| done | done | done].
  specialize (Hk a w'). rewrite Hk. exact Hm.
Qed.

Lemma writes_write_file (writable : string → bool) P path data :
  P path → is_bytes data →
  writes_at_most_one P (write_file writable path data).
Proof.
  intros HP Hdata w. unfold write_file.
  repeat case_match; simpl; try by left.
  all: right; by exists path, data.
Qed.

Lemma writes_try_except P (body : io unit) :
  writes_at_most_one P body → writes_at_most_one P (try_except body).
Proof.
  intros Hbody w. unfold try_except. specialize (Hbody w).
  by destruct (body w) as [[[] | | | e] w'].
Qed.

Lemma bind_Return_inv {A B} (m : method A) (k : A → method B) b self self' :
  bind m k self = (Return b, self') →
  ∃ a self1, m self = (Return a, self1) ∧ k a self1 = (Return b, self').
Proof.
  unfold bind. destruct (m self) as [[a | e] self1]; [| done].
  intros H. by exists a, self1.
Qed.

Lemma bytes_Return_inv ints c self self' :
  bytes ints self = (Return c, self') → is_bytes c.
Proof.
  unfold bytes. destruct (forallb in_byte_range ints) eqn:Hrange; [| done].
  intros [= <- _]. by apply forallb_in_byte_range.
Qed.

Lemma compress_bytes data meth self c self' :
  compress data meth self = (Return c, self') → is_bytes c.
Proof.
  unfold compress. intros H.
  apply bind_Return_inv in H as (a & self1 & _ & H).
  by apply bytes_Return_inv in H.
Qed.

Lemma decompress_bytes data meth self d self' :
  decompress data meth self = (Return d, self') → is_bytes d.
Proof.
  unfold decompress. intros H.
  apply bind_Return_inv in H as (a & self1 & _ & H).
  by apply bytes_Return_inv in H.
Qed.

Lemma writes_after_call {A B} P (m : method A) self
    (k : A * SimpleCompressionSystem → io B) :
  (∀ a self', m self = (Return a, self') → writes_at_most_one P (k (a, self'))) →
  writes_at_most_one P (call m self ≫= k).
Proof.
  intros Hk w. rewrite run_bind. unfold call.
  destruct (m self) as [[a | e] self'] eqn:Hm; [| by left].
  by apply Hk.
Qed.

Lemma endswith_append s suffix : endswith (s +:+ suffix) suffix = true.
Proof.
  induction s as [|a s IH].
  - change ("" +:+ suffix) with suffix.
    destruct suffix; cbn [endswith]; by rewrite String.eqb_refl.
  - change (String a s +:+ suffix) with (String a (s +:+ suffix)).
    cbn [endswith]. rewrite IH. by destruct (String.eqb _ _).
Qed.

Lemma endswith_cmp s :
  endswith (if negb (endswith s ".cmp") then s +:+ ".cmp" else s) ".cmp" = true.
Proof.
  destruct (endswith s ".cmp") eqn:Hs; simpl; [done |]. apply endswith_append.
Qed.

Section MenuFiles.
Variable strip : string → string.
Variable writable : string → bool.

Ltac shell_keeps :=
  solve [ repeat first [ apply keeps_files_print_methods
                       | apply keeps_files_benchmark
                       | progress keeps_files_tac ] ].

Lemma writes_compress_file :
  writes_at_most_one
    (λ path, endswith path ".cmp" = true ∧ writable path = true)
    (compress_file strip writable).
Proof.
  unfold compress_file.
  do 8 (apply writes_after_keeps; [shell_keeps | intros ?]).
  apply writes_after_call. intros compressed self' Hc.
  destruct (writable (if negb (endswith a2 ".cmp") then a2 +:+ ".cmp" else a2))
    eqn:Hw.
  - apply keeps_after_writes; [| intros ?; shell_keeps].
    apply writes_write_file; [| by apply compress_bytes in Hc].
    split; [apply endswith_cmp | done].
  - apply writes_of_keeps, keeps_files_bind; [| intros ?; shell_keeps].
    intros w. unfold write_file. rewrite Hw. by repeat case_match.
Qed.

Lemma writes_decompress_file :
  writes_at_most_one (λ path, writable path = true)
    (decompress_file strip writable).
Proof.
  unfold decompress_file.
  do 7 (apply writes_after_keeps; [shell_keeps | intros ?]).
  apply writes_after_call. intros decompressed self' Hd.
  destruct (writable a1) eqn:Hw.
  - apply keeps_after_writes; [| intros ?; shell_keeps].
    apply writes_write_file; [done | by apply decompress_bytes in Hd].
  - apply writes_of_keeps, keeps_files_bind; [| intros ?; shell_keeps].
    intros w. unfold write_file. rewrite Hw. by repeat case_match.
Qed.

Lemma keeps_files_benchmark_file : keeps_files (benchmark_file strip).
Proof. unfold benchmark_file. shell_keeps. Qed.

Lemma writes_weaken {A} (P Q : string → Prop) (m : io A) :
  (∀ path, P path → Q path) →
  writes_at_most_one P m → writes_at_most_one Q m.
Proof.
  intros HPQ Hm w. destruct (Hm w) as [Hkeep | (path & data & HP & Hd & Hw)];
    [by left |].
  right. exists path, data. split; [by apply HPQ | done].
Qed.

Lemma writes_iteration :
  writes_at_most_one (λ path, writable path = true)
    (iteration strip writable).
Proof.
  unfold iteration.
  do 5 (apply writes_after_keeps; [shell_keeps | intros ?]).
  apply writes_try_except.
  apply writes_after_keeps; [shell_keeps | intros choice].
  repeat case_match.
  - eapply writes_weaken; [| apply writes_compress_file]. by intros path [_ ?].
  - apply writes_decompress_file.
  - apply writes_of_keeps, keeps_files_benchmark_file.
  - apply writes_of_keeps, keeps_files_break.
  - apply writes_of_keeps, keeps_files_ret.
Qed.
End MenuFiles.

(** X11. benchmark of an empty file with one of the three methods raises
    ZeroDivisionError at the ratio [len(compressed) / len(original)]: only
    the line with the size of the file has been printed by then. *)
Theorem benchmark_empty_file (M : Method) (file_path : string) (w : world) :
  files w !! file_path = Some (File []) →
  benchmark file_path (selector M) w
  = (Raised ZeroDivisionError,
     {| files := files w; stdin := stdin w;
        stdout := stdout w ++ [Testing file_path 0] |}).
Proof.
  intros Hfile.
  destruct (codec_valid M [] __init__) as (c & Hc & _ & _ & Hempty);
    [constructor |].
  rewrite (Hempty eq_refl) in Hc.
  unfold benchmark. rewrite run_bind. unfold read_file at 1. rewrite Hfile.
  rewrite run_bind. cbn [print files stdin stdout].
  rewrite run_bind, (run_call _ _ _ _ Hc).
  rewrite run_bind. unfold true_div at 1. by rewrite decide_True by done.
Qed.

Lemma benchmark_empty_file_witness :
  benchmark "empty.bin" "02"
    {| files := {["empty.bin" := File []]}; stdin := []; stdout := [] |}
  = (Raised ZeroDivisionError,
     {| files := {["empty.bin" := File []]}; stdin := [];
        stdout := [Testing "empty.bin" 0] |}).
Proof.
  exact (benchmark_empty_file RLEOnly "empty.bin"
           {| files := {["empty.bin" := File []]}; stdin := []; stdout := [] |}
           (lookup_singleton_eq _ _)).
Defined.

Lemma benchmark_reports_round_trip_witness :
  ∃ compressed,
    compress [4; 4; 4] "02" __init__ = (Return compressed, __init__)
    ∧ benchmark "a.bin" "02"
        {| files := {["a.bin" := File [4; 4; 4]]}; stdin := []; stdout := [] |}
      = (Normal (),
         {| files := {["a.bin" := File [4; 4; 4]]}; stdin := [];
            stdout := [] ++
              [Testing "a.bin" (length [4; 4; 4]);
               Compressed (length compressed)
                 (length compressed, length [4; 4; 4]);
               Decompressed (length [4; 4; 4])] |}).
Proof.
  assert (is_bytes [4; 4; 4]) as Hbytes by solve_bytes.
  assert ([4; 4; 4] ≠ @nil Z) as Hne by discriminate.
  exact (benchmark_reports_round_trip RLEOnly "a.bin" [4; 4; 4]
           {| files := {["a.bin" := File [4; 4; 4]]}; stdin := [];
              stdout := [] |} (lookup_singleton_eq _ _) Hbytes Hne).
Defined.

(** X12. Whatever is typed and whatever the files are, one pass through the
    menu loop of main changes the file system by at most one write: either
    no file changes, or one path, which [open(path, 'wb')] accepts, is
    created or replaced with a byte string; no file is ever removed. *)
Theorem iteration_writes_at_most_one_file (strip : string → string)
    (writable : string → bool) (w : world) :
  files (iteration strip writable w).2 = files w
  ∨ ∃ path data,
      writable path = true ∧ is_bytes data
      ∧ files (iteration strip writable w).2 = <[path := File data]> (files w).
Proof. apply writes_iteration. Qed.

(** X13. The compress choice of the menu writes no file whose name does not
    end in ".cmp": whatever is typed, it leaves the files as they are or
    writes a byte string at one path ending in ".cmp". *)
Theorem compress_file_writes_cmp_only (strip : string → string)
    (writable : string → bool) (w : world) :
  files (compress_file strip writable w).2 = files w
  ∨ ∃ path data,
      (endswith path ".cmp" = true ∧ writable path = true) ∧ is_bytes data
      ∧ files (compress_file strip writable w).2
        = <[path := File data]> (files w).
Proof. apply writes_compress_file. Qed.

(** X14. benchmark never changes a file, whatever its arguments and whether
    it returns or raises. *)
Theorem benchmark_keeps_files (file_path meth : string) (w : world) :
  files (benchmark file_path meth w).2 = files w.
Proof. apply keeps_files_benchmark. Qed.

(** ** The choices of the menu, run *)

Section MenuRuns.
Variable strip : string → string.
Variable writable : string → bool.

Ltac shell_eval :=
  cbv [mbind io_bind fmap io_fmap mret io_ret];
  cbn -[compress decompress].

Lemma path_exists_file (w : world) path n :
  files w !! path = Some n → path_exists path w = (Normal true, w).
Proof.
  intros H. unfold path_exists. by rewrite bool_decide_eq_true_2 by by rewrite H.
Qed.

Lemma write_file_ok (w : world) path data :
  files w !! path ≠ Some Directory → writable path = true →
  write_file writable path data w
  = (Normal (), {| files := <[path := File data]> (files w);
                   stdin := stdin w; stdout := stdout w |}).
Proof.
  intros Hdir Hw. unfold write_file. rewrite Hw.
  by destruct (files w !! path) as [[]|].
Qed.

(** The compress choice on a readable file with a valid method. *)
Lemma compress_choice_run (M : Method) (w : world) l0 l1 l2 l3 rest original :
  stdin w = l0 :: l1 :: l2 :: l3 :: rest →
  strip l0 = "1" →
  files w !! strip l1 = Some (File original) →
  is_bytes original →
  strip l3 = selector M →
  let output_file :=
    if negb (endswith (strip l2) ".cmp") then strip l2 +:+ ".cmp"
    else strip l2 in
  files w !! output_file ≠ Some Directory →
  writable output_file = true →
  ∃ compressed w',
    compress original (selector M) __init__ = (Return compressed, __init__)
    ∧ decompress compressed (selector M) __init__ = (Return original, __init__)
    ∧ iteration strip writable w = (Normal (), w')
    ∧ files w' = <[output_file := File compressed]> (files w)
    ∧ stdin w' = rest
    ∧ last (stdout w')
      = Some (if decide (original = []) then Error ZeroDivisionError
              else CompressedTo (length original) (length compressed)
                     (length compressed, length original)).
Proof.
  intros Hin H0 Hfile Hbytes H3 output_file Hdir Hw.
  destruct (codec_valid M original __init__ Hbytes) as (c & Hc & _ & Hd & _).
  exists c. destruct w as [fs inp out]. simpl in Hin, Hfile, Hdir. subst inp.
  unfold iteration, try_except, compress_file, print_methods.
  shell_eval. rewrite H0. shell_eval. rewrite Hfile. shell_eval.
  rewrite H3, not_a_method_selector. shell_eval.
  unfold read_file. cbn [files]. rewrite Hfile.
  unfold call. rewrite Hc. fold output_file.
  rewrite write_file_ok by done. cbn [files stdin stdout].
  unfold true_div. destruct (decide (length original = 0%nat)) as [Hlen | Hlen].
  - eexists. split; [done |]. split; [done |]. split; [done |].
    cbn [files stdin stdout]. split; [done |]. split; [done |].
    rewrite last_snoc, decide_True; [done |]. by apply nil_length_inv.
  - eexists. split; [done |]. split; [done |]. split; [done |].
    cbn [files stdin stdout print snd]. split; [done |]. split; [done |].
    rewrite last_snoc, decide_False; [done |]. by intros ->.
Qed.

(** The decompress choice on a readable ".cmp" file with a valid method,
    when the codec returns. *)
Lemma decompress_choice_run (M : Method) (w : world) k0 k1 k2 k3 rest
    compressed decompressed :
  stdin w = k0 :: k1 :: k2 :: k3 :: rest →
  strip k0 = "2" →
  endswith (strip k1) ".cmp" = true →
  files w !! strip k1 = Some (File compressed) →
  strip k3 = selector M →
  decompress compressed (selector M) __init__
  = (Return decompressed, __init__) →
  files w !! strip k2 ≠ Some Directory →
  writable (strip k2) = true →
  ∃ w',
    iteration strip writable w = (Normal (), w')
    ∧ files w' = <[strip k2 := File decompressed]> (files w)
    ∧ stdin w' = rest
    ∧ last (stdout w')
      = Some (DecompressedTo (length compressed) (length decompressed)).
Proof.
  intros Hin H0 Hcmp Hfile H3 Hd Hdir Hw.
  destruct w as [fs inp out]. simpl in Hin, Hfile, Hdir. subst inp.
  unfold iteration, try_except, decompress_file, print_methods.
  shell_eval. rewrite H0. shell_eval. rewrite Hcmp. shell_eval.
  rewrite H3, not_a_method_selector. shell_eval.
  unfold read_file. cbn [files]. rewrite Hfile.
  unfold call. rewrite Hd.
  rewrite write_file_ok by done. cbn [files stdin stdout print].
  eexists. split; [done |]. cbn [files stdin stdout].
  split; [done |]. split; [done |]. by rewrite last_snoc.
Qed.

(** The same choice when the codec raises. *)
Lemma decompress_choice_raise (M : Method) (w : world) k0 k1 k2 k3 rest
    compressed e :
  stdin w = k0 :: k1 :: k2 :: k3 :: rest →
  strip k0 = "2" →
  endswith (strip k1) ".cmp" = true →
  files w !! strip k1 = Some (File compressed) →
  strip k3 = selector M →
  decompress compressed (selector M) __init__ = (Raise e, __init__) →
  ∃ w',
    iteration strip writable w = (Normal (), w')
    ∧ files w' = files w
    ∧ stdin w' = rest
    ∧ last (stdout w') = Some (Error (CodecError e)).
Proof.
  intros Hin H0 Hcmp Hfile H3 Hd.
  destruct w as [fs inp out]. simpl in Hin, Hfile. subst inp.
  unfold iteration, try_except, decompress_file, print_methods.
  shell_eval. rewrite H0. shell_eval. rewrite Hcmp. shell_eval.
  rewrite H3, not_a_method_selector. shell_eval.
  unfold read_file. cbn [files]. rewrite Hfile.
  unfold call. rewrite Hd. cbn [files stdin stdout print].
  eexists. split; [done |]. cbn [files stdin stdout].
  split; [done |]. split; [done |]. by rewrite last_snoc.
Qed.
End MenuRuns.

(** X15. A file compressed through the menu and decompressed through the
    menu with the same method is restored: after the compress choice on a
    readable file and the decompress choice on the ".cmp" file it wrote, the
    output file of the second holds the bytes of the original file.  The
    name typed for the compressed file gets ".cmp" appended unless it ends
    with it. *)
Theorem menu_round_trip (strip : string → string) (writable : string → bool)
    (M : Method) (w : world) l0 l1 l2 l3 k0 k1 k2 k3 rest original :
  stdin w = l0 :: l1 :: l2 :: l3 :: k0 :: k1 :: k2 :: k3 :: rest →
  strip l0 = "1" →
  files w !! strip l1 = Some (File original) →
  is_bytes original →
  strip l3 = selector M →
  let output_file :=
    if negb (endswith (strip l2) ".cmp") then strip l2 +:+ ".cmp"
    else strip l2 in
  files w !! output_file ≠ Some Directory →
  writable output_file = true →
  strip k0 = "2" →
  strip k1 = output_file →
  strip k3 = selector M →
  files w !! strip k2 ≠ Some Directory →
  writable (strip k2) = true →
  ∃ compressed w1 w2,
    iteration strip writable w = (Normal (), w1)
    ∧ files w1 = <[output_file := File compressed]> (files w)
    ∧ iteration strip writable w1 = (Normal (), w2)
    ∧ files w2 = <[strip k2 := File original]> (files w1)
    ∧ stdin w2 = rest.
Proof.
  intros Hin H0 Hfile Hbytes H3 output_file Hdir Hw K0 K1 K3 Hdir2 Hw2.
  destruct (compress_choice_run strip writable M w l0 l1 l2 l3 _ original
              Hin H0 Hfile Hbytes H3 Hdir Hw)
    as (c & w1 & Hc & Hd & Hrun1 & Hfiles1 & Hin1 & _).
  fold output_file in Hfiles1.
  destruct (decompress_choice_run strip writable M w1 k0 k1 k2 k3 rest c
              original Hin1 K0) as (w2 & Hrun2 & Hfiles2 & Hin2 & _).
  - rewrite K1. apply endswith_cmp.
  - by rewrite Hfiles1, K1, lookup_insert_eq.
  - done.
  - done.
  - rewrite Hfiles1. destruct (decide (output_file = strip k2)) as [<- | Hne].
    + by rewrite lookup_insert_eq.
    + by rewrite lookup_insert_ne.
  - done.
  - by exists c, w1, w2.
Qed.

Lemma menu_round_trip_witness :
  let w := {| files := {["a.bin" := File [6; 6; 6; 7]]};
              stdin := ["1"; "a.bin"; "b"; "01"; "2"; "b.cmp"; "c.bin"; "01"];
              stdout := [] |} in
  ∃ compressed w1 w2,
    iteration id (λ _, true) w = (Normal (), w1)
    ∧ files w1 = <["b.cmp" := File compressed]> (files w)
    ∧ iteration id (λ _, true) w1 = (Normal (), w2)
    ∧ files w2 = <["c.bin" := File [6; 6; 6; 7]]> (files w1)
    ∧ stdin w2 = [].
Proof.
  intros w.
  assert (is_bytes [6; 6; 6; 7]) as Hbytes by solve_bytes.
  assert (files w !! "b.cmp" ≠ Some Directory) as Hdir by (vm_compute; discriminate).
  assert (files w !! "c.bin" ≠ Some Directory) as Hdir2 by (vm_compute; discriminate).
  exact (menu_round_trip id (λ _, true) DeltaRLE w
           "1" "a.bin" "b" "01" "2" "b.cmp" "c.bin" "01" [] [6; 6; 6; 7]
           eq_refl eq_refl (lookup_singleton_eq _ _) Hbytes eq_refl
           Hdir eq_refl eq_refl eq_refl eq_refl Hdir2 eq_refl).
Defined.

(** X16. The compress choice of the menu on an empty file writes the (empty)
    compressed file and then fails at the ratio of its report: the handler
    prints the ZeroDivisionError in place of the report, and the loop goes
    on. *)
Theorem menu_compress_empty_file (strip : string → string)
    (writable : string → bool) (M : Method) (w : world) l0 l1 l2 l3 rest :
  stdin w = l0 :: l1 :: l2 :: l3 :: rest →
  strip l0 = "1" →
  files w !! strip l1 = Some (File []) →
  strip l3 = selector M →
  let output_file :=
    if negb (endswith (strip l2) ".cmp") then strip l2 +:+ ".cmp"
    else strip l2 in
  files w !! output_file ≠ Some Directory →
  writable output_file = true →
  ∃ w',
    iteration strip writable w = (Normal (), w')
    ∧ files w' = <[output_file := File []]> (files w)
    ∧ stdin w' = rest
    ∧ last (stdout w') = Some (Error ZeroDivisionError).
Proof.
  intros Hin H0 Hfile H3 output_file Hdir Hw.
  assert (is_bytes []) as Hbytes by constructor.
  destruct (compress_choice_run strip writable M w l0 l1 l2 l3 rest []
              Hin H0 Hfile Hbytes H3 Hdir Hw)
    as (c & w' & Hc & _ & Hrun & Hfiles & Hin' & Hlast).
  destruct (codec_valid M [] __init__ Hbytes) as (c' & Hc' & _ & _ & Hempty).
  rewrite (Hempty eq_refl) in Hc'. rewrite Hc' in Hc. injection Hc as <-.
  exists w'. by rewrite decide_True in Hlast by done.
Qed.

Lemma menu_compress_empty_file_witness :
  let w := {| files := {["e" := File []]};
              stdin := ["1"; "e"; "e.cmp"; "03"]; stdout := [] |} in
  ∃ w',
    iteration id (λ _, true) w = (Normal (), w')
    ∧ files w' = <["e.cmp" := File []]> (files w)
    ∧ stdin w' = []
    ∧ last (stdout w') = Some (Error ZeroDivisionError).
Proof.
  intros w.
  assert (files w !! "e.cmp" ≠ Some Directory) as Hdir by (vm_compute; discriminate).
  exact (menu_compress_empty_file id (λ _, true) DeltaOnly w
           "1" "e" "e.cmp" "03" [] eq_refl eq_refl (lookup_singleton_eq _ _)
           eq_refl Hdir eq_refl).
Defined.

(** X17. The decompress choice of the menu on a ".cmp" file of odd length,
    with method '01' or '02', creates no output file and replaces none: the
    IndexError of the codec is raised before the output is opened, the
    handler prints it, and the loop goes on with the files as they were. *)
Theorem menu_decompress_malformed (strip : string → string)
    (writable : string → bool) (M : Method) (w : world) k0 k1 k2 k3 rest
    compressed :
  stdin w = k0 :: k1 :: k2 :: k3 :: rest →
  strip k0 = "2" →
  endswith (strip k1) ".cmp" = true →
  files w !! strip k1 = Some (File compressed) →
  Nat.Odd (length compressed) →
  strip k3 = selector M → M ≠ DeltaOnly →
  ∃ w',
    iteration strip writable w = (Normal (), w')
    ∧ files w' = files w
    ∧ stdin w' = rest
    ∧ last (stdout w') = Some (Error (CodecError IndexError)).
Proof.
  intros Hin K0 Hcmp Hfile Hodd K3 HM.
  apply (decompress_choice_raise strip writable M w k0 k1 k2 k3 rest compressed);
    try done.
  apply decompress_odd; [| done]. by destruct M; [left | right |].
Qed.

Lemma menu_decompress_malformed_witness :
  let w := {| files := {["x.cmp" := File [5]]};
              stdin := ["2"; "x.cmp"; "x"; "02"]; stdout := [] |} in
  ∃ w',
    iteration id (λ _, true) w = (Normal (), w')
    ∧ files w' = files w
    ∧ stdin w' = []
    ∧ last (stdout w') = Some (Error (CodecError IndexError)).
Proof.
  intros w.
  assert (Nat.Odd (length [5])) as Hodd by (exists 0%nat; reflexivity).
  assert (RLEOnly ≠ DeltaOnly) as HM by discriminate.
  exact (menu_decompress_malformed id (λ _, true) RLEOnly w
           "2" "x.cmp" "x" "02" [] [5] eq_refl eq_refl eq_refl
           (lookup_singleton_eq _ _) Hodd eq_refl HM).
Defined.

(** ** Leaving the loop *)

Lemma never_breaks_bind {A B} (m : io A) (k : A → io B) :
  never_breaks m → (∀ a, never_breaks (k a)) → never_breaks (m ≫= k).
Proof.
  intros Hm Hk w. rewrite run_bind. specialize (Hm w).
  destruct (m w) as [[a | | | e] w']; simpl in *; [apply Hk | done..].
Qed.

Lemma never_breaks_ret {A} (a : A) : never_breaks (mret a).
Proof. by intros w. Qed.

Lemma never_breaks_fmap {A B} (f : A → B) (m : io A) :
  never_breaks m → never_breaks (f <$> m).
Proof.
  intros Hm. apply never_breaks_bind; [done |].
  intros a. apply never_breaks_ret.
Qed.

Lemma never_breaks_print l : never_breaks (print l).
Proof. by intros w. Qed.

Lemma never_breaks_input prompt : never_breaks (input prompt).
Proof. intros w. unfold input. by destruct (stdin w). Qed.

Lemma never_breaks_path_exists path : never_breaks (path_exists path).
Proof. by intros w. Qed.

Lemma never_breaks_read_file path : never_breaks (read_file path).
Proof. intros w. unfold read_file. by repeat case_match. Qed.

Lemma never_breaks_write_file writable path data :
  never_breaks (write_file writable path data).
Proof. intros w. unfold write_file. by repeat case_match. Qed.

Lemma never_breaks_true_div a b : never_breaks (true_div a b).
Proof. intros w. unfold true_div. by case_decide. Qed.

Lemma never_breaks_call {A} (m : method A) self : never_breaks (call m self).
Proof. intros w. unfold call. by repeat case_match. Qed.

Lemma never_breaks_continue {A} : never_breaks (@continue A).
Proof. by intros w. Qed.

Ltac never_breaks_tac :=
  repeat first
    [ apply never_breaks_print | apply never_breaks_input
    | apply never_breaks_path_exists | apply never_breaks_read_file
    | apply never_breaks_write_file
    | apply never_breaks_true_div | apply never_breaks_call
    | apply never_breaks_continue
    | apply never_breaks_ret | apply never_breaks_fmap
    | apply never_breaks_bind
    | match goal with
      | |- never_breaks (if ?b then _ else _) => destruct b
      | |- never_breaks (let '(_, _) := ?p in _) => destruct p
      | |- ∀ _, _ => intros ?
      end ].

Lemma consumes_input_bind {A B} (m : io A) (k : A → io B) :
  consumes_input m → (∀ a, consumes_input (k a)) → consumes_input (m ≫= k).
Proof.
  intros Hm Hk w. rewrite run_bind. specialize (Hm w).
  destruct (m w) as [[a | | | e] w']; simpl in *; [| done..].
  by etrans; [apply Hk |].
Qed.

Lemma consumes_input_ret {A} (a : A) : consumes_input (mret a).
Proof. by intros w. Qed.

Lemma consumes_input_fmap {A B} (f : A → B) (m : io A) :
  consumes_input m → consumes_input (f <$> m).
Proof.
  intros Hm. apply consumes_input_bind; [done |].
  intros a. apply consumes_input_ret.
Qed.

Lemma consumes_input_print l : consumes_input (print l).
Proof. by intros w. Qed.

Lemma consumes_input_input prompt : consumes_input (input prompt).
Proof.
  intros w. unfold input. destruct (stdin w) as [|typed rest]; simpl; [done |].
  by apply suffix_cons_r.
Qed.

Lemma consumes_input_path_exists path : consumes_input (path_exists path).
Proof. by intros w. Qed.

Lemma consumes_input_read_file path : consumes_input (read_file path).
Proof. intros w. unfold read_file. by repeat case_match. Qed.

Lemma consumes_input_write_file writable path data :
  consumes_input (write_file writable path data).
Proof. intros w. unfold write_file. by repeat case_match. Qed.

Lemma consumes_input_true_div a b : consumes_input (true_div a b).
Proof. intros w. unfold true_div. by case_decide. Qed.

Lemma consumes_input_call {A} (m : method A) self : consumes_input (call m self).
Proof. intros w. unfold call. by repeat case_match. Qed.

Lemma consumes_input_continue {A} : consumes_input (@continue A).
Proof. by intros w. Qed.

Lemma consumes_input_break {A} : consumes_input (@break A).
Proof. by intros w. Qed.

Ltac consumes_input_tac :=
  repeat first
    [ apply consumes_input_print | apply consumes_input_input
    | apply consumes_input_path_exists | apply consumes_input_read_file
    | apply consumes_input_write_file
    | apply consumes_input_true_div | apply consumes_input_call
    | apply consumes_input_continue | apply consumes_input_break
    | apply consumes_input_ret | apply consumes_input_fmap
    | apply consumes_input_bind
    | match goal with
      | |- consumes_input (if ?b then _ else _) => destruct b
      | |- consumes_input (let '(_, _) := ?p in _) => destruct p
      | |- ∀ _, _ => intros ?
      end ].

Section MainLoop.
Variable strip : string → string.
Variable writable : string → bool.

Lemma never_breaks_compress_file : never_breaks (compress_file strip writable).
Proof. unfold compress_file, print_methods. never_breaks_tac. Qed.

Lemma never_breaks_decompress_file :
  never_breaks (decompress_file strip writable).
Proof. unfold decompress_file, print_methods. never_breaks_tac. Qed.

Lemma never_breaks_benchmark_file : never_breaks (benchmark_file strip).
Proof. unfold benchmark_file, benchmark, print_methods. never_breaks_tac. Qed.

Lemma consumes_input_try_except body :
  consumes_input body → consumes_input (try_except body).
Proof.
  intros Hbody w. unfold try_except. specialize (Hbody w).
  by destruct (body w) as [[[] | | | e] w'].
Qed.

Lemma consumes_input_iteration : consumes_input (iteration strip writable).
Proof.
  unfold iteration.
  do 5 (apply consumes_input_bind; [consumes_input_tac | intros ?]).
  apply consumes_input_try_except.
  unfold compress_file, decompress_file, benchmark_file, benchmark,
    print_methods.
  consumes_input_tac.
Qed.

Lemma try_except_break body w :
  (try_except body w).1 = Break → (body w).1 = Break.
Proof. unfold try_except. by destruct (body w) as [[[] | | | e] w']. Qed.

(** The loop is left only when the line typed at the prompt of the menu
    is "4" once stripped. *)
Lemma iteration_break (w : world) :
  (iteration strip writable w).1 = Break →
  ∃ typed rest, stdin w = typed :: rest ∧ strip typed = "4".
Proof.
  unfold iteration. rewrite !run_bind. cbn [print files stdin stdout].
  intros Hbreak. apply try_except_break in Hbreak.
  rewrite run_bind in Hbreak. unfold fmap, io_fmap in Hbreak.
  rewrite run_bind in Hbreak. unfold input in Hbreak.
  cbn [files stdin stdout] in Hbreak.
  destruct (stdin w) as [|typed rest]; [done |].
  exists typed, rest. split; [done |].
  cbn [mret io_ret] in Hbreak.
  destruct (String.eqb (strip typed) "1") eqn:H1.
  { by apply never_breaks_compress_file in Hbreak. }
  destruct (String.eqb (strip typed) "2") eqn:H2.
  { by apply never_breaks_decompress_file in Hbreak. }
  destruct (String.eqb (strip typed) "3") eqn:H3.
  { by apply never_breaks_benchmark_file in Hbreak. }
  destruct (String.eqb (strip typed) "4") eqn:H4; [| done].
  by apply String.eqb_eq.
Qed.

(** The handler catches every exception of the body. *)
Lemma iteration_never_raises (w : world) e :
  (iteration strip writable w).1 ≠ Raised e.
Proof.
  unfold iteration.
  do 5 (rewrite run_bind; cbn [print files stdin stdout]).
  unfold try_except.
  match goal with
  | |- (match ?body with _ => _ end).1 ≠ _ =>
      by destruct body as [[[] | | | e'] w']
  end.
Qed.

Lemma main_loop_never_returns (fuel : nat) : ∀ w,
  (∀ typed, typed ∈ stdin w → strip typed ≠ "4") →
  main_loop strip writable fuel w = None.
Proof.
  induction fuel as [|fuel IH]; intros w Hno4; [done |].
  cbn [main_loop].
  pose proof (iteration_break w) as Hbreak.
  pose proof (iteration_never_raises w) as Hraise.
  pose proof (consumes_input_iteration w) as [consumed Hsuffix].
  destruct (iteration strip writable w) as [r w'] eqn:Hrun.
  assert (main_loop strip writable fuel w' = None) as Hrest.
  { apply IH. intros typed Hin. apply Hno4. rewrite Hsuffix.
    apply elem_of_app. by right. }
  destruct r as [[] | | | e]; [done | done | | by destruct (Hraise e)].
  destruct (Hbreak eq_refl) as (typed & rest & Hin & H4).
  exfalso. apply (Hno4 typed); [| done]. rewrite Hin. by left.
Qed.
End MainLoop.

(** X18. main returns when "4" is selected at the menu: if the first line
    typed is "4" once stripped, main comes back after one pass through the
    loop, with the files as they were and the rest of the input unread. *)
Theorem main_exits_on_4 (strip : string → string) (writable : string → bool)
    (w : world) typed rest (fuel : nat) :
  stdin w = typed :: rest → strip typed = "4" →
  ∃ w',
    main strip writable (S fuel) w = Some (Normal (), w')
    ∧ files w' = files w
    ∧ stdin w' = rest.
Proof.
  intros Hin H4. destruct w as [fs inp out]. simpl in Hin. subst inp.
  unfold main, main_loop, iteration, try_except.
  cbv [mbind io_bind fmap io_fmap mret io_ret].
  cbn -[compress decompress]. rewrite H4. cbn -[compress decompress].
  by eexists.
Qed.

Lemma main_exits_on_4_witness :
  ∃ w',
    main id (λ _, true) 1
      {| files := ∅; stdin := ["4"; "1"]; stdout := [] |}
    = Some (Normal (), w')
    ∧ files w' = ∅
    ∧ stdin w' = ["1"].
Proof.
  exact (main_exits_on_4 id (λ _, true)
           {| files := ∅; stdin := ["4"; "1"]; stdout := [] |} "4" ["1"] 0
           eq_refl eq_refl).
Defined.

(** X19. main returns only through the choice "4": when no line of the input
    is "4" once stripped, and in particular when the input is empty, the
    loop is never left, however many times it is run; the EOFError of input
    at the end of the input is caught by the handler like any other
    exception. *)
Theorem main_never_returns_without_4 (strip : string → string)
    (writable : string → bool) (w : world) (fuel : nat) :
  (∀ typed, typed ∈ stdin w → strip typed ≠ "4") →
  main strip writable fuel w = None.
Proof.
  intros Hno4. unfold main.
  rewrite run_bind. cbn [print files stdin stdout].
  by apply main_loop_never_returns.
Qed.

Lemma main_never_returns_without_4_witness :
  main id (λ _, true) 25 {| files := ∅; stdin := ["3"; "x"]; stdout := [] |}
  = None.
Proof.
  apply (main_never_returns_without_4 id (λ _, true)
           {| files := ∅; stdin := ["3"; "x"]; stdout := [] |} 25).
  intros typed Hin. cbn [stdin] in Hin.
  apply elem_of_cons in Hin as [-> | Hin]; [discriminate |].
  apply elem_of_cons in Hin as [-> | Hin]; [discriminate |].
  by apply elem_of_nil in Hin.
Defined.

(** X21. The decompress choice of the menu refuses an input name that does
    not end in ".cmp": it prints "Must be a .cmp file!" and goes back to the
    menu without asking for the output file or the method and without
    touching a file. *)
Theorem menu_decompress_requires_cmp (strip : string → string)
    (writable : string → bool) (w : world) k0 k1 rest :
  stdin w = k0 :: k1 :: rest →
  strip k0 = "2" →
  endswith (strip k1) ".cmp" = false →
  ∃ w',
    iteration strip writable w = (Continue, w')
    ∧ files w' = files w
    ∧ stdin w' = rest
    ∧ last (stdout w') = Some (Text "Must be a .cmp file!").
Proof.
  intros Hin K0 Hcmp. destruct w as [fs inp out]. simpl in Hin. subst inp.
  unfold iteration, try_except, decompress_file.
  cbv [mbind io_bind fmap io_fmap mret io_ret].
  cbn -[compress decompress]. rewrite K0. cbn -[compress decompress].
  rewrite Hcmp. cbn -[compress decompress].
  eexists. split; [done |]. cbn [files stdin stdout].
  split; [done |]. split; [done |]. by rewrite last_snoc.
Qed.

Lemma menu_decompress_requires_cmp_witness :
  let w := {| files := {["x.bin" := File [5; 1]]};
              stdin := ["2"; "x.bin"; "y"; "02"]; stdout := [] |} in
  ∃ w',
    iteration id (λ _, true) w = (Continue, w')
    ∧ files w' = files w
    ∧ stdin w' = ["y"; "02"]
    ∧ last (stdout w') = Some (Text "Must be a .cmp file!").
Proof.
  intros w.
  exact (menu_decompress_requires_cmp id (λ _, true) w "2" "x.bin" ["y"; "02"]
           eq_refl eq_refl eq_refl).
Defined.

(** X22. The compress choice of the menu rejects a method other than '01',
    '02' and '03' before the codec is called: it prints "Invalid method
    selected." and goes back to the menu; the input file is not read and no
    file is written. *)
Theorem menu_compress_rejects_method (strip : string → string)
    (writable : string → bool) (w : world) l0 l1 l2 l3 rest n :
  stdin w = l0 :: l1 :: l2 :: l3 :: rest →
  strip l0 = "1" →
  files w !! strip l1 = Some n →
  (∀ M, strip l3 ≠ selector M) →
  ∃ w',
    iteration strip writable w = (Continue, w')
    ∧ files w' = files w
    ∧ stdin w' = rest
    ∧ last (stdout w') = Some (Text "Invalid method selected.").
Proof.
  intros Hin H0 Hfile Hmeth. destruct w as [fs inp out].
  simpl in Hin, Hfile. subst inp.
  assert (not_a_method (strip l3) = true) as Hnot.
  { unfold not_a_method. rewrite bool_decide_eq_false_2; [done |].
    intros Hin. apply elem_of_cons in Hin as [H | Hin];
      [by apply (Hmeth DeltaRLE) |].
    apply elem_of_cons in Hin as [H | Hin]; [by apply (Hmeth RLEOnly) |].
    apply elem_of_cons in Hin as [H | Hin]; [by apply (Hmeth DeltaOnly) |].
    by apply elem_of_nil in Hin. }
  unfold iteration, try_except, compress_file, print_methods.
  cbv [mbind io_bind fmap io_fmap mret io_ret].
  cbn -[compress decompress]. rewrite H0. cbn -[compress decompress].
  rewrite Hfile. cbn -[compress decompress].
  rewrite Hnot. cbn -[compress decompress].
  eexists. split; [done |]. cbn [files stdin stdout].
  split; [done |]. split; [done |]. by rewrite last_snoc.
Qed.

Lemma menu_compress_rejects_method_witness :
  let w := {| files := {["a.bin" := File [5; 1]]};
              stdin := ["1"; "a.bin"; "a"; "99"]; stdout := [] |} in
  ∃ w',
    iteration id (λ _, true) w = (Continue, w')
    ∧ files w' = files w
    ∧ stdin w' = []
    ∧ last (stdout w') = Some (Text "Invalid method selected.").
Proof.
  intros w.
  assert (∀ M, id "99" ≠ selector M) as Hmeth by (intros []; discriminate).
  exact (menu_compress_rejects_method id (λ _, true) w "1" "a.bin" "a" "99" []
           (File [5; 1]) eq_refl eq_refl (lookup_singleton_eq _ _) Hmeth).
Defined.
